(** * yoani-buppan-helper: the event list pipeline of [app.js]

    A shallow embedding of [app.js] (fetch, normalise, sort, count, filter,
    render) and the properties of it that the specification relies on.

    Conventions of the embedding.
    - A JavaScript string is the [string] of its UTF-8 bytes.  Every
      operation the program performs on strings (strict equality,
      concatenation, splitting on ['/'], replacing ASCII characters) acts the
      same way on the UTF-8 bytes of well-formed text.
    - A value whose JavaScript type the program does not fix (the page token
      of a response) is a [JsVal].
    - [created] is a [Num]: the time value of a valid [Date], an integral
      number of milliseconds, or [NaN] for a document whose [createTime] is
      missing or is not parsed.  A difference of two time values is taken
      exactly; of the comparator of the sort only the sign is used, and the
      rounding of a difference does not change its sign.
    - The platform (network, calendar) is a record [Host] passed explicitly.
    - Module-level variables ([allEvents], [currentFilter]) and the part of
      the page the program writes to are fields of [App]. *)

From stdpp Require Import base list strings gmap pretty.
From Stdlib Require Import ZArith Ascii Permutation Sorted Lia.

Local Open Scope string_scope.
Local Open Scope list_scope.
Local Open Scope Z_scope.

(* ================================================================== *)
(** * JavaScript values and strings *)
(* ================================================================== *)

(** The integers that a Number holds exactly and that a JSON text gives
    without rounding: those up to [Number.MAX_SAFE_INTEGER] in magnitude. *)
Definition safeInteger (z : Z) : bool := Z.abs z <=? 9007199254740991.

(** A JSON value as far as the program looks at it.  [JNum z _] is a number
    that is a safe integer ([-0] is [0]).  [JObject shown] is any other
    value that is always truthy and of which only the conversion to a string
    can be observed: an object, an array, or a number that is no safe integer
    (a fraction, or a number beyond the safe range, which is never zero). *)
Inductive JsVal : Type :=
| JUndefined
| JNull
| JBool (b : bool)
| JNum (z : Z) (safe : Is_true (safeInteger z))
| JStr (s : string)
| JObject (shown : string).

(** ToBoolean. *)
Definition truthy (v : JsVal) : bool :=
  match v with
  | JUndefined | JNull => false
  | JBool b => b
  | JNum z _ => negb (z =? 0)
  | JStr s => negb (String.eqb s "")
  | JObject _ => true
  end.

(** [a || b]. *)
Definition js_or (a b : JsVal) : JsVal := if truthy a then a else b.

(** ToString, as a template literal applies it to a substitution; a safe
    integer is printed with all its digits. *)
Definition toString (v : JsVal) : string :=
  match v with
  | JUndefined => "undefined"
  | JNull => "null"
  | JBool true => "true"
  | JBool false => "false"
  | JNum z _ => pretty z
  | JStr s => s
  | JObject shown => shown
  end.

(** A Number that is an integer or [NaN]: a time value, a field of the
    calendar, a difference of time values. *)
Inductive Num : Type :=
| NaN
| Int (z : Z).

Coercion Int : Z >-> Num.

#[global] Instance Num_eq_dec : EqDecision Num.
Proof. solve_decision. Defined.

(** [a - b] and [a + b]. *)
Definition numSub (a b : Num) : Num :=
  match a, b with
  | Int x, Int y => Int (x - y)
  | _, _ => NaN
  end.

Definition numAdd (a b : Num) : Num :=
  match a, b with
  | Int x, Int y => Int (x + y)
  | _, _ => NaN
  end.

(** [a >= b]: false as soon as one side is [NaN]. *)
Definition numGe (a b : Num) : Prop :=
  match a, b with
  | Int x, Int y => x >= y
  | _, _ => False
  end.

(** [String(a)]. *)
Definition numToString (a : Num) : string :=
  match a with
  | NaN => "NaN"
  | Int z => pretty z
  end.

(** The result of a comparator as [Array.prototype.sort] reads it: is it
    above zero, [NaN] being taken as [+0]. *)
Definition positive (v : Num) : bool :=
  match v with
  | NaN => false
  | Int z => z >? 0
  end.

(** [s.split(sep)] for a one-character separator: never an empty array. *)
Fixpoint split (sep : ascii) (s : string) : list string :=
  match s with
  | EmptyString => [EmptyString]
  | String c rest =>
      if Ascii.eqb c sep then EmptyString :: split sep rest
      else match split sep rest with
           | seg :: segs => String c seg :: segs
           | [] => [String c EmptyString]
           end
  end.

(** [arr.pop()] read for its value; [None] is [undefined]. *)
Definition pop (arr : list string) : option string := last arr.

(** [s.padStart(n, '0')]. *)
Definition padStart0 (n : nat) (s : string) : string :=
  String.concat "" (replicate (n - String.length s) "0") +:+ s.

(** [hay.includes(needle)], used to state properties of the markup. *)
Fixpoint includes (hay needle : string) : bool :=
  String.prefix needle hay ||
  match hay with
  | EmptyString => false
  | String _ rest => includes rest needle
  end.

(** The markup of the source is written here with ['] where the source has a
    double quote; [markup] puts the double quotes back.  The templates of the
    source contain no apostrophe. *)
Definition dquote : ascii := ascii_of_nat 34.

Fixpoint markup (s : string) : string :=
  match s with
  | EmptyString => EmptyString
  | String c rest =>
      String (if Ascii.eqb c "'"%char then dquote else c) (markup rest)
  end.

(* ================================================================== *)
(** * Constants *)
(* ================================================================== *)

Definition API_URL : string :=
  "https://firestore.googleapis.com/v1/projects/yoani-buppan-dev/databases/(default)/documents/events-prod".

Record GroupConfig : Type := { url : string; displayName : string }.

(** [GROUP_CONFIG], as [Object.entries] enumerates it: string keys in
    insertion order. *)
Definition GROUP_CONFIG : list (string * GroupConfig) :=
  [ ("equal-love",       {| url := "https://equal-love.jp/";       displayName := "=LOVE" |});
    ("not-equal-me",     {| url := "https://not-equal-me.jp/";     displayName := "≠ME" |});
    ("nearly-equal-joy", {| url := "https://nearly-equal-joy.jp/"; displayName := "≒JOY" |});
    ("unknown",          {| url := "";                             displayName := "その他" |}) ].

(* ================================================================== *)
(** * Utility functions *)
(* ================================================================== *)

(** The [for ... of Object.entries(config)] loop of [officialSiteToGroup]:
    the first entry whose [url] is strictly equal to [siteUrl] returns. *)
Fixpoint scanEntries (entries : list (string * GroupConfig)) (siteUrl : string)
  : option string :=
  match entries with
  | [] => None
  | (group, config) :: rest =>
      if String.eqb (url config) siteUrl then Some group
      else scanEntries rest siteUrl
  end.

Definition officialSiteToGroup (siteUrl : string) : string :=
  match scanEntries GROUP_CONFIG siteUrl with
  | Some group => group
  | None => "unknown"
  end.

(** [obj[key]] for an own property; [None] is [undefined].  A key that names
    an inherited property of [GROUP_CONFIG] reads an object without
    [displayName], which [getGroupDisplayName] treats as it treats
    [undefined]. *)
Fixpoint ownProperty {A} (obj : list (string * A)) (key : string) : option A :=
  match obj with
  | [] => None
  | (k, v) :: rest => if String.eqb k key then Some v else ownProperty rest key
  end.

Definition getGroupDisplayName (group : string) : string :=
  match ownProperty GROUP_CONFIG group with
  | Some config => displayName config
  | None => "その他"
  end.

(** The normalised record. *)
Record Event : Type := mkEvent {
  e_id : string;
  e_name : string;
  e_group : string;
  e_created : Num
}.

Definition generateShopLink (event : Event) : string :=
  "https://monosys.net/" +:+ e_group event +:+ "/" +:+ e_id event.

(* ================================================================== *)
(** * The platform *)
(* ================================================================== *)

(** A Firestore value of a document's field bag, read through
    [?.stringValue]; [None] is an absent (or null) [stringValue]. *)
Record FieldValue : Type := { stringValue : option string }.

(** [doc.fields], read through [.event_name] and [.official_site_url];
    [None] is an absent (or null) entry. *)
Record Fields : Type := {
  event_name : option FieldValue;
  official_site_url : option FieldValue
}.

(** An element of [data.documents].  [doc_name = None]: [doc.name] is not a
    string, so that [doc.name.split] throws; [doc_fields = None]:
    [doc.fields] is undefined or null, so that reading a property of it
    throws; [createTime = None]: [doc.createTime] is missing.
    [DocNotObject] is a null element. *)
Inductive Doc : Type :=
| DocNotObject
| DocObject (doc_name : option string) (doc_fields : option Fields)
            (createTime : option string).

(** [data.documents]: a falsy value (usually absent), an array, or a truthy
    value that has no [map] method, of which the program logs the [length]
    before it calls [map]. *)
Inductive Documents : Type :=
| DocsFalsy
| DocsArray (docs : list Doc)
| DocsNotArray (shownLength : string).

(** What [response.json()] settles to.  A body that is a JSON scalar or array
    has neither property and is [BodyData JUndefined DocsFalsy]. *)
Inductive Body : Type :=
| BodyUnparsable
| BodyNull
| BodyData (nextPageToken : JsVal) (documents : Documents).

(** What [fetch(url)] settles to. *)
Inductive Response : Type :=
| FetchRejected
| HttpResponse (ok : bool) (statusText : string) (body : Body).

(** The platform: the remote endpoint answers a request from the requests it
    has received before (oldest first) and the URL requested; [Date] parses a
    timestamp, to a time value or to [NaN] when it cannot, and reads the
    local calendar of a time value. *)
Record Host : Type := {
  remote : list string -> string -> Response;
  Date_getTime : string -> Num;
  Date_getFullYear : Z -> Z;
  Date_getMonth : Z -> Z;
  Date_getDate : Z -> Z
}.

(** A getter of [new Date(timestamp)]: [NaN] for an invalid date. *)
Definition dateField (get : Z -> Z) (timestamp : Num) : Num :=
  match timestamp with
  | NaN => NaN
  | Int t => Int (get t)
  end.

Definition formatDate (h : Host) (timestamp : Num) : string :=
  let year := dateField (Date_getFullYear h) timestamp in
  let month :=
    padStart0 2 (numToString (numAdd (dateField (Date_getMonth h) timestamp) 1)) in
  let day := padStart0 2 (numToString (dateField (Date_getDate h) timestamp)) in
  numToString year +:+ "/" +:+ month +:+ "/" +:+ day.

(* ================================================================== *)
(** * Effects: exceptions, the request log and the console *)
(* ================================================================== *)

Inductive Exn : Type :=
| Error (message : string)
| TypeError
| SyntaxError
| NetworkFailure.

(** What the program does to the outside: the requests it has issued and the
    lines it has logged, oldest first. *)
Record World : Type := mkWorld {
  requests : list string;
  console : list string
}.

Definition newWorld : World := {| requests := []; console := [] |}.

(** A computation that may throw and that acts on the world. *)
Definition Eff (A : Type) : Type := World -> (Exn + A) * World.

Definition ret {A} (a : A) : Eff A := fun w => (inr a, w).

Definition throw {A} (e : Exn) : Eff A := fun w => (inl e, w).

Definition bind {A B} (m : Eff A) (k : A -> Eff B) : Eff B :=
  fun w =>
    match m w with
    | (inl e, w') => (inl e, w')
    | (inr a, w') => k a w'
    end.

(** [try { m } catch (error) { handler(error) }]. *)
Definition tryCatch {A} (m : Eff A) (handler : Exn -> Eff A) : Eff A :=
  fun w =>
    match m w with
    | (inl e, w') => handler e w'
    | (inr a, w') => (inr a, w')
    end.

Declare Scope eff_scope.
Delimit Scope eff_scope with eff.
Notation "x <- m ;; k" := (bind m (fun x => k))
  (at level 100, m at next level, right associativity) : eff_scope.
Notation "m ;; k" := (bind m (fun _ => k))
  (at level 100, right associativity) : eff_scope.
Local Open Scope eff_scope.

Definition console_log (line : string) : Eff unit :=
  fun w => (inr tt, {| requests := requests w; console := console w ++ [line] |}).

(** [await fetch(url)]: the request is recorded, and a rejected promise is
    thrown at the [await]. *)
Definition fetch (h : Host) (url : string) : Eff (bool * string * Body) :=
  fun w =>
    let w' := {| requests := requests w ++ [url]; console := console w |} in
    match remote h (requests w) url with
    | FetchRejected => (inl NetworkFailure, w')
    | HttpResponse ok statusText body => (inr (ok, statusText, body), w')
    end.

(** [await response.json()], then the two property reads of [data]. *)
Definition json (body : Body) : Eff (JsVal * Documents) :=
  match body with
  | BodyUnparsable => throw SyntaxError
  | BodyNull => throw TypeError
  | BodyData nextPageToken documents => ret (nextPageToken, documents)
  end.

(** [arr.map(f)] for an [f] that may throw: left to right, the first
    exception ends it. *)
Fixpoint mapE {A B} (f : A -> Exn + B) (l : list A) : Exn + list B :=
  match l with
  | [] => inr []
  | x :: rest =>
      match f x with
      | inl e => inl e
      | inr y =>
          match mapE f rest with
          | inl e => inl e
          | inr ys => inr (y :: ys)
          end
      end
  end.

Definition liftE {A} (r : Exn + A) : Eff A := fun w => (r, w).

(** [do { st = body(st) } while (cond(st))], with [fuel] iterations at most;
    [None] when the fuel runs out before the condition fails. *)
Fixpoint doWhile {St} (fuel : nat) (body : St -> Eff St) (cond : St -> bool)
    (st : St) : Eff (option St) :=
  match fuel with
  | O => ret None
  | S fuel' =>
      st' <- body st ;;
      if cond st' then doWhile fuel' body cond st' else ret (Some st')
  end.

(* ================================================================== *)
(** * API functions *)
(* ================================================================== *)

(** [x?.stringValue ?? ''] *)
Definition stringValueOr (field : option FieldValue) : string :=
  match field with
  | Some v => match stringValue v with Some s => s | None => "" end
  | None => ""
  end.

(** The arrow function mapped over [data.documents]. *)
Definition normalize (h : Host) (doc : Doc) : Exn + Event :=
  match doc with
  | DocNotObject => inl TypeError
  | DocObject None _ _ => inl TypeError
  | DocObject (Some name) None _ => inl TypeError
  | DocObject (Some name) (Some fields) createTime =>
      inr {| e_id := default "" (pop (split "/" name));
             e_name := stringValueOr (event_name fields);
             e_group := officialSiteToGroup (stringValueOr (official_site_url fields));
             e_created := match createTime with
                          | Some text => Date_getTime h text
                          | None => NaN
                          end |}
  end.

Definition requestUrl (pageToken : JsVal) : string :=
  if truthy pageToken then API_URL +:+ "?pageToken=" +:+ toString pageToken
  else API_URL.

(** One iteration of the loop of [fetchEvents], on the two variables
    [eventList] and [pageToken]; returning early is the [continue]. *)
Definition fetchPage (h : Host) (st : list Event * JsVal) : Eff (list Event * JsVal) :=
  let '(eventList, pageToken) := st in
  let url := requestUrl pageToken in
  response <- fetch h url ;;
  let '(ok, statusText, body) := response in
  if negb ok then throw (Error ("Network error: " +:+ statusText)) else
  data <- json body ;;
  let '(nextPageToken, documents) := data in
  let pageToken := js_or nextPageToken JUndefined in
  match documents with
  | DocsFalsy => ret (eventList, pageToken)
  | DocsNotArray shownLength =>
      console_log ("Fetched " +:+ shownLength +:+ " entries. Has more: "
                   +:+ toString (JBool (truthy pageToken))) ;;
      throw TypeError
  | DocsArray docs =>
      console_log ("Fetched " +:+ pretty (length docs) +:+ " entries. Has more: "
                   +:+ toString (JBool (truthy pageToken))) ;;
      events <- liftE (mapE (normalize h) docs) ;;
      ret (eventList ++ events, pageToken)
  end.

(** The body of the [try] block; [None] when [fuel] requests did not reach
    the end of the pagination. *)
Definition fetchLoop (h : Host) (fuel : nat) : Eff (option (list Event)) :=
  st <- doWhile fuel (fetchPage h) (fun st => truthy (snd st)) ([], JUndefined) ;;
  ret (fst <$> st).

Definition fetchEvents (h : Host) (fuel : nat) : Eff (option (list Event)) :=
  tryCatch (fetchLoop h fuel)
    (fun error => console_log "Fetch error:" ;; ret (Some [])).

(* ================================================================== *)
(** * DOM functions *)
(* ================================================================== *)

(** A filter button: its [data-group] attribute and whether its class list
    holds [active]. *)
Record Button : Type := { dataset_group : string; active : bool }.

(** The part of the page the program writes to.  The elements it looks up
    by id exist in the page; [textContent] and [style_display] are keyed by
    element id. *)
Record Dom : Type := {
  event_list_innerHTML : string;
  textContent : gmap string string;
  style_display : gmap string string;
  filter_btns : list Button
}.

(** [escapeHtml]: the text is stored as the only child of a fresh [div] and
    the [div] is serialised.  The HTML fragment serialisation algorithm
    writes a text node with [&], U+00A0, [<] and [>] replaced by [&amp;],
    [&nbsp;], [&lt;] and [&gt;]; quotes are replaced in attribute values
    only.  U+00A0 is the two bytes 194, 160. *)
Fixpoint escapeHtml (text : string) : string :=
  match text with
  | EmptyString => EmptyString
  | String c rest =>
      if Ascii.eqb c "&" then "&amp;" +:+ escapeHtml rest
      else if Ascii.eqb c "<" then "&lt;" +:+ escapeHtml rest
      else if Ascii.eqb c ">" then "&gt;" +:+ escapeHtml rest
      else if Ascii.eqb c (ascii_of_nat 194) then
        match rest with
        | String d rest' =>
            if Ascii.eqb d (ascii_of_nat 160) then "&nbsp;" +:+ escapeHtml rest'
            else String c (escapeHtml rest)
        | EmptyString => String c EmptyString
        end
      else String c (escapeHtml rest)
  end.

(** The literal parts of the template of one card, in order. *)
Definition card_0 : string := markup "
        <article class='event-card ".

Definition card_1 : string := markup "'>
            <a href='".

Definition card_2 : string := markup "' target='_blank' rel='noopener noreferrer'>
                <div class='event-header'>
                    <span class='group-badge ".

Definition card_3 : string := markup "'>".

Definition card_4 : string := markup "</span>
                    <span class='event-date'>".

Definition card_5 : string := markup "</span>
                </div>
                <h3 class='event-name'>".

Definition card_6 : string := markup "</h3>
                <div class='event-footer'>
                    <span class='shop-link'>
                        ショップを開く
                        <svg fill='none' stroke='currentColor' viewBox='0 0 24 24'>
                            <path stroke-linecap='round' stroke-linejoin='round' stroke-width='2' 
                                d='M10 6H6a2 2 0 00-2 2v10a2 2 0 002 2h10a2 2 0 002-2v-4M14 4h6m0 0v6m0-6L10 14' />
                        </svg>
                    </span>
                </div>
            </a>
        </article>
    ".

(** The template of one card with its substitutions, piece by piece. *)
Definition cardPieces (h : Host) (event : Event) : list string :=
  [ card_0; e_group event;
    card_1; generateShopLink event;
    card_2; e_group event;
    card_3; getGroupDisplayName (e_group event);
    card_4; formatDate h (e_created event);
    card_5; escapeHtml (e_name event);
    card_6 ].

Definition renderCard (h : Host) (event : Event) : string :=
  String.concat "" (cardPieces h event).

Definition emptyState : string := markup "
            <div class='empty-state' style='grid-column: 1 / -1;'>
                <svg fill='none' stroke='currentColor' viewBox='0 0 24 24'>
                    <path stroke-linecap='round' stroke-linejoin='round' stroke-width='1.5' 
                        d='M20 13V6a2 2 0 00-2-2H6a2 2 0 00-2 2v7m16 0v5a2 2 0 01-2 2H6a2 2 0 01-2-2v-5m16 0h-2.586a1 1 0 00-.707.293l-2.414 2.414a1 1 0 01-.707.293h-3.172a1 1 0 01-.707-.293l-2.414-2.414A1 1 0 006.586 13H4' />
                </svg>
                <p>イベントが見つかりませんでした</p>
            </div>
        ".

(** [renderEvents]: what [listEl.innerHTML] is set to. *)
Definition renderEvents (h : Host) (events : list Event) (dom : Dom) : Dom :=
  {| event_list_innerHTML :=
       if decide (length events = 0%nat) then emptyState
       else String.concat "" (map (renderCard h) events);
     textContent := textContent dom;
     style_display := style_display dom;
     filter_btns := filter_btns dom |}.

(* ================================================================== *)
(** * State *)
(* ================================================================== *)

Record App : Type := {
  allEvents : list Event;
  currentFilter : string;
  dom : Dom
}.

Definition setText (id : string) (text : string) (d : Dom) : Dom :=
  {| event_list_innerHTML := event_list_innerHTML d;
     textContent := <[id := text]> (textContent d);
     style_display := style_display d;
     filter_btns := filter_btns d |}.

Definition setDisplay (id : string) (value : string) (d : Dom) : Dom :=
  {| event_list_innerHTML := event_list_innerHTML d;
     textContent := textContent d;
     style_display := <[id := value]> (style_display d);
     filter_btns := filter_btns d |}.

(** The object literal [counts] of [updateStats]. *)
Definition counts0 : gmap string nat :=
  {[ "equal-love" := 0%nat; "not-equal-me" := 0%nat;
     "nearly-equal-joy" := 0%nat; "unknown" := 0%nat ]}.

(** The callback of [allEvents.forEach]: [hasOwnProperty] guards the
    increment. *)
Definition countEvent (counts : gmap string nat) (event : Event) : gmap string nat :=
  match counts !! e_group event with
  | Some n => <[e_group event := S n]> counts
  | None => counts
  end.

Definition countEvents (events : list Event) : gmap string nat :=
  foldl countEvent counts0 events.

(** [counts[key]] written to a text slot; the four keys are never absent. *)
Definition showCount (counts : gmap string nat) (key : string) : string :=
  match counts !! key with
  | Some n => pretty n
  | None => "undefined"
  end.

Definition updateStats (app : App) : App :=
  let counts := countEvents (allEvents app) in
  {| allEvents := allEvents app;
     currentFilter := currentFilter app;
     dom :=
       setText "stat-nearly-equal-joy" (showCount counts "nearly-equal-joy")
       (setText "stat-not-equal-me" (showCount counts "not-equal-me")
       (setText "stat-equal-love" (showCount counts "equal-love")
       (setText "count-nearly-equal-joy" (showCount counts "nearly-equal-joy")
       (setText "count-not-equal-me" (showCount counts "not-equal-me")
       (setText "count-equal-love" (showCount counts "equal-love")
       (setText "count-all" (pretty (length (allEvents app)))
       (dom app))))))) |}.

(** The expression bound to [filtered] in [filterEvents]. *)
Definition filtered (group : string) (allEvents : list Event) : list Event :=
  if String.eqb group "all" then allEvents
  else List.filter (fun event => String.eqb (e_group event) group) allEvents.

Definition toggleActive (group : string) (btn : Button) : Button :=
  {| dataset_group := dataset_group btn;
     active := String.eqb (dataset_group btn) group |}.

Definition filterEvents (h : Host) (group : string) (app : App) : App :=
  let d := dom app in
  let d' := {| event_list_innerHTML := event_list_innerHTML d;
               textContent := textContent d;
               style_display := style_display d;
               filter_btns := map (toggleActive group) (filter_btns d) |} in
  {| allEvents := allEvents app;
     currentFilter := group;
     dom := renderEvents h (filtered group (allEvents app)) d' |}.

(* ================================================================== *)
(** * Initialization *)
(* ================================================================== *)

(** [Array.prototype.sort(comparefn)].  The sort is stable, and for a
    comparator that is consistent (as a difference of integers is) the
    standard fixes its result: the elements in the order of the comparator,
    those that compare equal in their original order.  That result is
    computed here by insertion from the right.  When a comparison is [NaN]
    the comparator is not consistent and the standard leaves the order to the
    engine; the insertion then gives one order an engine may give, and what
    is proved of such a list holds of each of its arrangements. *)
Section Sort.
Context {A : Type} (comparefn : A -> A -> Num).

Fixpoint insertSorted (x : A) (l : list A) : list A :=
  match l with
  | [] => [x]
  | y :: rest =>
      if positive (comparefn x y) then y :: insertSorted x rest
      else x :: y :: rest
  end.

Definition sort (l : list A) : list A := foldr insertSorted [] l.
End Sort.

(** [(a, b) => b.created - a.created] *)
Definition byCreatedDesc (a b : Event) : Num := numSub (e_created b) (e_created a).

(** [init]: the two handler registrations change nothing that is modelled;
    a click on a filter button runs [filterEvents] with its [data-group]. *)
Definition init (h : Host) (fuel : nat) (app : App) : Eff (option App) :=
  fetched <- fetchEvents h fuel ;;
  match fetched with
  | None => ret None
  | Some events =>
      let allEvents := sort byCreatedDesc events in
      console_log ("Loaded " +:+ pretty (length allEvents) +:+ " events") ;;
      let d := setDisplay "stats" "grid" (setDisplay "loading" "none" (dom app)) in
      let app := updateStats {| allEvents := allEvents;
                                currentFilter := currentFilter app;
                                dom := d |} in
      ret (Some {| allEvents := allEvents;
                   currentFilter := currentFilter app;
                   dom := renderEvents h allEvents (dom app) |})
  end.

(** The state when the script is loaded, over the page as it is served. *)
Definition initialApp (page : Dom) : App :=
  {| allEvents := []; currentFilter := "all"; dom := page |}.

(* ================================================================== *)
(** * Notions used to state the properties *)
(* ================================================================== *)

(** The number of records of a group. *)
Definition groupSize (k : string) (events : list Event) : nat :=
  length (filter (fun event => e_group event = k) events).

(** Most recent first. *)
Definition newerFirst (a b : Event) : Prop := numGe (e_created a) (e_created b).

(** A record whose [createTime] was parsed. *)
Definition hasTime (event : Event) : Prop := e_created event <> NaN.

(** What one response contributes to the loop: an exception, or the records
    of the page and the value [pageToken] holds after it. *)
Definition readPage (h : Host) (response : Response) : Exn + (list Event * JsVal) :=
  match response with
  | FetchRejected => inl NetworkFailure
  | HttpResponse false statusText _ => inl (Error ("Network error: " +:+ statusText))
  | HttpResponse true _ BodyUnparsable => inl SyntaxError
  | HttpResponse true _ BodyNull => inl TypeError
  | HttpResponse true _ (BodyData nextPageToken DocsFalsy) =>
      inr ([], js_or nextPageToken JUndefined)
  | HttpResponse true _ (BodyData nextPageToken (DocsNotArray _)) => inl TypeError
  | HttpResponse true _ (BodyData nextPageToken (DocsArray docs)) =>
      match mapE (normalize h) docs with
      | inl e => inl e
      | inr events => inr (events, js_or nextPageToken JUndefined)
      end
  end.

(** [Pages h log tok pages log' tok']: with the requests [log] behind it and
    [tok] in [pageToken], the loop receives, one request after the other,
    responses that are read without exception, that hold the records [pages]
    and that each carry a token; the requests are then [log'] and the token
    of the last response is [tok']. *)
Inductive Pages (h : Host) :
  list string -> JsVal -> list (list Event) -> list string -> JsVal -> Prop :=
| Pages_nil log tok : Pages h log tok [] log tok
| Pages_cons log tok events tok1 pages log' tok' :
    readPage h (remote h log (requestUrl tok)) = inr (events, tok1) ->
    truthy tok1 = true ->
    Pages h (log ++ [requestUrl tok]) tok1 pages log' tok' ->
    Pages h log tok (events :: pages) log' tok'.

Definition hasToken (st : list Event * JsVal) : bool := truthy (snd st).

(** [s.includes(c)] for one character. *)
Fixpoint hasChar (c : ascii) (s : string) : bool :=
  match s with
  | EmptyString => false
  | String d rest => Ascii.eqb d c || hasChar c rest
  end.

(** Every [&] of the text begins one of the four character references that
    the serialisation of a text node writes. *)
Fixpoint entitiesOnly (s : string) : bool :=
  match s with
  | EmptyString => true
  | String c rest =>
      (if Ascii.eqb c "&"
       then String.prefix "amp;" rest || String.prefix "lt;" rest
            || String.prefix "gt;" rest || String.prefix "nbsp;" rest
       else true)
      && entitiesOnly rest
  end.

(** What an HTML parser reads back from a text in which the only character
    references are those four ([skip]: characters of a reference still to be
    passed over). *)
Fixpoint unescapeFrom (skip : nat) (s : string) : string :=
  match s with
  | EmptyString => EmptyString
  | String c rest =>
      match skip with
      | S k => unescapeFrom k rest
      | O =>
          if Ascii.eqb c "&" then
            if String.prefix "amp;" rest then String "&" (unescapeFrom 4 rest)
            else if String.prefix "lt;" rest then String "<" (unescapeFrom 3 rest)
            else if String.prefix "gt;" rest then String ">" (unescapeFrom 3 rest)
            else if String.prefix "nbsp;" rest
              then String (ascii_of_nat 194) (String (ascii_of_nat 160) (unescapeFrom 5 rest))
            else String c (unescapeFrom 0 rest)
          else String c (unescapeFrom 0 rest)
      end
  end.

Definition unescapeHtml (s : string) : string := unescapeFrom 0 s.

Definition withName (name : string) (event : Event) : Event :=
  {| e_id := e_id event; e_name := name; e_group := e_group event;
     e_created := e_created event |}.

(* ================================================================== *)
(** * Concrete platforms and inputs, for the examples *)
(* ================================================================== *)

(** An endpoint that answers its [n]-th request with the [n]-th response of
    a script, whatever the URL, and rejects the requests after the script. *)
Definition scripted (responses : list Response) (earlier : list string)
    (url : string) : Response :=
  default FetchRejected (responses !! length earlier).

(** An endpoint that answers by the URL requested. *)
Definition routed (routes : list (string * Response)) (earlier : list string)
    (url : string) : Response :=
  default FetchRejected (ownProperty routes url).

(** A clock that parses the timestamps of a table and no other text, and a
    fixed calendar. *)
Definition hostOf (remote : list string -> string -> Response)
    (clock : list (string * Z)) : Host :=
  {| remote := remote;
     Date_getTime := fun s => match ownProperty clock s with
                              | Some t => Int t
                              | None => NaN
                              end;
     Date_getFullYear := fun _ => 2024;
     Date_getMonth := fun _ => 0;
     Date_getDate := fun _ => 5 |}.

Definition clock3 : list (string * Z) :=
  [ ("2024-01-05T00:00:00.100Z", 100);
    ("2024-01-05T00:00:00.300Z", 300);
    ("2024-01-05T00:00:00.200Z", 200) ].

Definition docOf (name event site createTime : string) : Doc :=
  DocObject (Some name)
    (Some {| event_name := Some {| stringValue := Some event |};
             official_site_url := Some {| stringValue := Some site |} |})
    (Some createTime).

Definition doc_a : Doc :=
  docOf "projects/p/databases/(default)/documents/events-prod/a"
        "Spring tour" "https://equal-love.jp/" "2024-01-05T00:00:00.100Z".
Definition doc_b : Doc :=
  docOf "projects/p/databases/(default)/documents/events-prod/b"
        "<script>" "https://not-equal-me.jp/" "2024-01-05T00:00:00.300Z".
Definition doc_c : Doc :=
  docOf "projects/p/databases/(default)/documents/events-prod/c"
        "Summer & more" "https://example.org/" "2024-01-05T00:00:00.200Z".

Definition ev_a : Event := mkEvent "a" "Spring tour" "equal-love" 100.
Definition ev_b : Event := mkEvent "b" "<script>" "not-equal-me" 300.
Definition ev_c : Event := mkEvent "c" "Summer & more" "unknown" 200.

(** A document whose [createTime] is not a timestamp, and a page that holds
    it between dated documents. *)
Definition doc_undated : Doc :=
  docOf "projects/p/databases/(default)/documents/events-prod/u"
        "Undated" "https://equal-love.jp/" "to be announced".

Definition ev_undated : Event := mkEvent "u" "Undated" "equal-love" NaN.

Definition undatedPage : list Response :=
  [ HttpResponse true "OK"
      (BodyData JUndefined (DocsArray [doc_a; doc_undated; doc_b; doc_c])) ].

(** A first page whose token holds characters that a query string would
    have encoded. *)
Definition rawTokenPages : list Response :=
  [ HttpResponse true "OK" (BodyData (JStr "a b&c=d/e") (DocsArray [doc_a]));
    HttpResponse true "OK" (BodyData JUndefined (DocsArray [doc_c])) ].

(** A record whose name is a piece of the markup of every card, and a
    record whose id is its name. *)
Definition ev_span : Event := mkEvent "s" "<span" "equal-love" 100.

Definition ev_script_id : Event := mkEvent "<script>" "<script>" "unknown" 100.

(** Page 1: two documents and a token; page 2: one document and no token. *)
Definition twoPages : list Response :=
  [ HttpResponse true "OK" (BodyData (JStr "tok1") (DocsArray [doc_a; doc_b]));
    HttpResponse true "OK" (BodyData JUndefined (DocsArray [doc_c])) ].

Definition emptyPage : Dom :=
  {| event_list_innerHTML := ""; textContent := ∅; style_display := ∅;
     filter_btns := [ {| dataset_group := "all"; active := true |};
                      {| dataset_group := "equal-love"; active := false |};
                      {| dataset_group := "not-equal-me"; active := false |};
                      {| dataset_group := "nearly-equal-joy"; active := false |} ] |}.

(** Two records on the first page, then a server error. *)
Definition pageThenError : list Response :=
  [ HttpResponse true "OK" (BodyData (JStr "tok1") (DocsArray [doc_a; doc_b]));
    HttpResponse false "Internal Server Error" BodyUnparsable ].

(** The second page carries the empty string as its token, and the endpoint
    would go on answering. *)
Definition emptyTokenPages : list Response :=
  [ HttpResponse true "OK" (BodyData (JStr "tok1") (DocsArray [doc_a; doc_b]));
    HttpResponse true "OK" (BodyData (JStr "") (DocsArray [doc_c]));
    HttpResponse true "OK" (BodyData JUndefined (DocsArray [doc_a])) ].

(** A document of the collection whose id closes the [href] attribute and
    opens an element; the same text as a name, for comparison. *)
Definition payload : string := markup "'><img src=x onerror=alert(1)>".

Definition doc_x : Doc :=
  docOf ("projects/p/databases/(default)/documents/events-prod/" +:+ payload)
        payload "https://equal-love.jp/" "2024-01-05T00:00:00.100Z".

Definition ev_x : Event := mkEvent payload payload "equal-love" 100.

Definition onePage : list Response :=
  [ HttpResponse true "OK" (BodyData JUndefined (DocsArray [doc_x])) ].

(* ================================================================== *)
(** * Event handlers, and further notions for the properties *)
(* ================================================================== *)

(** The click handler that [initFilterButtons] registers on the [i]-th
    filter button: [filterEvents(btn.dataset.group)]. *)
Definition onFilterClick (h : Host) (i : nat) (app : App) : App :=
  match filter_btns (dom app) !! i with
  | Some btn => filterEvents h (dataset_group btn) app
  | None => app
  end.

(** A key of [GROUP_CONFIG]. *)
Definition configured (group : string) : Prop := group ∈ GROUP_CONFIG.*1.

(** A record as [fetchEvents] builds them: its group is a key of the table
    and its id holds no ['/']. *)
Definition wellFormed (event : Event) : Prop :=
  configured (e_group event) /\ hasChar "/" (e_id event) = false.

(** Every character of the text satisfies [p]. *)
Fixpoint allChars (p : ascii -> bool) (s : string) : bool :=
  match s with
  | EmptyString => true
  | String c rest => p c && allChars p rest
  end.

Definition isDigit (c : ascii) : bool :=
  (48 <=? nat_of_ascii c)%nat && (nat_of_ascii c <=? 57)%nat.

(** The characters of a formatted date. *)
Definition dateChar (c : ascii) : bool :=
  isDigit c || Ascii.eqb c "-" || Ascii.eqb c "/".

(** The characters that [escapeHtml] leaves as they are, the first byte of
    U+00A0 apart. *)
Definition plainChar (c : ascii) : bool :=
  negb (Ascii.eqb c "&") && negb (Ascii.eqb c "<") && negb (Ascii.eqb c ">")
  && negb (Ascii.eqb c (ascii_of_nat 194)).

(** The ids of the text slots that [updateStats] writes. *)
Definition statSlots : list string :=
  [ "count-all"; "count-equal-love"; "count-not-equal-me"; "count-nearly-equal-joy";
    "stat-equal-love"; "stat-not-equal-me"; "stat-nearly-equal-joy" ].

(** The number of buttons that carry the class [active]. *)
Definition activeButtons (d : Dom) : nat :=
  length (List.filter active (filter_btns d)).

(** An endpoint whose collection is empty. *)
Definition noDocuments : list Response :=
  [ HttpResponse true "OK" (BodyData JUndefined DocsFalsy) ].

(* ================================================================== *)
(** * Properties of the classifier and of the shop link *)
(* ================================================================== *)

Lemma scanEntries_first entries siteUrl i group config :
  entries !! i = Some (group, config) ->
  url config = siteUrl ->
  (forall j g c, (j < i)%nat -> entries !! j = Some (g, c) -> url c <> siteUrl) ->
  scanEntries entries siteUrl = Some group.
Proof.
  revert i. induction entries as [|[g0 c0] rest IH]; intros i Hi Hu Hfirst.
  - discriminate.
  - simpl. destruct i as [|i].
    + injection Hi as -> ->. rewrite (proj2 (String.eqb_eq _ _) Hu). reflexivity.
    + destruct (String.eqb_spec (url c0) siteUrl) as [Heq|_].
      * exfalso. apply (Hfirst 0%nat g0 c0); [lia|reflexivity|exact Heq].
      * apply (IH i); [exact Hi|exact Hu|].
        intros j g c Hj Hl. apply (Hfirst (S j) g c); [lia|exact Hl].
Qed.

Lemma scanEntries_none entries siteUrl :
  (forall group config, (group, config) ∈ entries -> url config <> siteUrl) ->
  scanEntries entries siteUrl = None.
Proof.
  induction entries as [|[g0 c0] rest IH]; intros Hno; [reflexivity|].
  simpl. destruct (String.eqb_spec (url c0) siteUrl) as [Heq|_].
  - exfalso. apply (Hno g0 c0); [left|exact Heq].
  - apply IH. intros g c Hin. apply (Hno g c). right. exact Hin.
Qed.

Lemma scanEntries_key entries siteUrl group :
  scanEntries entries siteUrl = Some group -> group ∈ entries.*1.
Proof.
  induction entries as [|[g0 c0] rest IH]; simpl; [discriminate|].
  destruct (String.eqb (url c0) siteUrl).
  - intros [= ->]. left.
  - intros H. right. apply IH, H.
Qed.

(** C5. [officialSiteToGroup] is defined on every string.  When the string is
    exactly the [url] of an entry of [GROUP_CONFIG], it returns the key of
    the first such entry in the order of the table; when it is the [url] of
    no entry it returns ["unknown"], the fallback; the result is always one
    of the keys of the table. *)
Theorem officialSiteToGroup_first_match_or_fallback (siteUrl : string) :
  (forall i group config,
      GROUP_CONFIG !! i = Some (group, config) ->
      url config = siteUrl ->
      (forall j g c, (j < i)%nat -> GROUP_CONFIG !! j = Some (g, c) -> url c <> siteUrl) ->
      officialSiteToGroup siteUrl = group)
  /\ ((forall group config, (group, config) ∈ GROUP_CONFIG -> url config <> siteUrl) ->
      officialSiteToGroup siteUrl = "unknown")
  /\ officialSiteToGroup siteUrl ∈ GROUP_CONFIG.*1.
Proof.
  unfold officialSiteToGroup. split; [|split].
  - intros i group config Hi Hu Hfirst.
    rewrite (scanEntries_first _ _ _ _ _ Hi Hu Hfirst). reflexivity.
  - intros Hno. rewrite (scanEntries_none _ _ Hno). reflexivity.
  - destruct (scanEntries GROUP_CONFIG siteUrl) as [group|] eqn:E.
    + apply (scanEntries_key _ _ _ E).
    + simpl. do 3 right. left.
Qed.

(** Four inputs: a configured URL, the same URL in another case, the same URL
    without its final slash, and the empty string (the [url] of the
    fallback entry itself). *)
Lemma officialSiteToGroup_examples :
  officialSiteToGroup "https://not-equal-me.jp/" = "not-equal-me"
  /\ officialSiteToGroup "https://Not-Equal-Me.jp/" = "unknown"
  /\ officialSiteToGroup "https://not-equal-me.jp" = "unknown"
  /\ officialSiteToGroup "" = "unknown".
Proof.
  split.
  - apply (proj1 (officialSiteToGroup_first_match_or_fallback _) 1%nat _
             {| url := "https://not-equal-me.jp/"; displayName := "≠ME" |});
      [reflexivity|reflexivity|].
    intros j g c Hj Hl. destruct j as [|j]; [|lia].
    injection Hl as <- <-. discriminate.
  - split; [|split].
    + apply (proj1 (proj2 (officialSiteToGroup_first_match_or_fallback _))).
      intros g c Hin.
      repeat (apply elem_of_cons in Hin as [[= -> ->]|Hin]; [discriminate|]).
      inversion Hin.
    + apply (proj1 (proj2 (officialSiteToGroup_first_match_or_fallback _))).
      intros g c Hin.
      repeat (apply elem_of_cons in Hin as [[= -> ->]|Hin]; [discriminate|]).
      inversion Hin.
    + reflexivity.
Defined.

Lemma renderCard_unfold h event :
  renderCard h event =
  card_0 +:+ e_group event +:+ card_1 +:+ generateShopLink event +:+
  card_2 +:+ e_group event +:+ card_3 +:+ getGroupDisplayName (e_group event) +:+
  card_4 +:+ formatDate h (e_created event) +:+
  card_5 +:+ escapeHtml (e_name event) +:+ card_6.
Proof. reflexivity. Qed.

(** C9. The link of a record is the fixed base, the record's group and the
    record's id, in that order, joined by ['/']; the renderer puts that link,
    as it is, between the [href] quotes that end [card_1] and begin [card_2];
    for the group ["equal-love"] and the id ["abc"] the link is the base
    joined with ["equal-love/abc"]. *)
Theorem generateShopLink_base_group_id (h : Host) (event : Event) :
  generateShopLink event
    = String.concat "/" ["https://monosys.net"; e_group event; e_id event]
  /\ cardPieces h event !! 3%nat = Some (generateShopLink event)
  /\ (exists after,
        renderCard h event =
        card_0 +:+ e_group event +:+ card_1 +:+
        String.concat "/" ["https://monosys.net"; e_group event; e_id event]
        +:+ card_2 +:+ after)
  /\ (e_group event = "equal-love" -> e_id event = "abc" ->
      generateShopLink event = "https://monosys.net" +:+ "/" +:+ "equal-love/abc").
Proof.
  split; [reflexivity|]. split; [reflexivity|]. split.
  - eexists. rewrite renderCard_unfold. reflexivity.
  - intros Hg Hi. unfold generateShopLink. rewrite Hg, Hi. reflexivity.
Qed.

Lemma generateShopLink_example :
  generateShopLink (mkEvent "abc" "Spring tour" "equal-love" 100)
  = "https://monosys.net/equal-love/abc".
Proof.
  apply (proj2 (proj2 (proj2 (generateShopLink_base_group_id
           (hostOf (scripted []) []) (mkEvent "abc" "Spring tour" "equal-love" 100))))).
  - reflexivity.
  - reflexivity.
Defined.

(* ================================================================== *)
(** * Properties of the filter *)
(* ================================================================== *)

Lemma filtered_all (records : list Event) : filtered "all" records = records.
Proof. reflexivity. Qed.

Lemma filtered_eq_filter (c : string) (records : list Event) :
  c <> "all" ->
  filtered c records = filter (fun event => e_group event = c) records.
Proof.
  intros Hc. unfold filtered.
  destruct (String.eqb_spec c "all") as [->|_]; [contradiction|].
  induction records as [|e rest IH]; [reflexivity|].
  simpl. rewrite filter_cons, IH.
  destruct (String.eqb_spec (e_group e) c) as [Heq|Hne];
    destruct (decide (e_group e = c)); congruence.
Qed.

Lemma filtered_idempotent (c : string) (records : list Event) :
  filtered c (filtered c records) = filtered c records.
Proof.
  unfold filtered. destruct (String.eqb c "all"); [reflexivity|].
  induction records as [|e rest IH]; [reflexivity|].
  simpl. destruct (String.eqb (e_group e) c) eqn:E; [|exact IH].
  simpl. rewrite E, IH. reflexivity.
Qed.

(** C4. With the selector ["all"] the filter gives the input itself.  With
    any other selector [c] it gives the records of group [c] and only those,
    in their order: it is the sub-list of the input that keeps exactly the
    elements of group [c].  [filterEvents] leaves [allEvents] as it was, and
    running it a second time with the same selector changes nothing. *)
Theorem filtered_is_ordered_subsequence (h : Host) (c : string) (app : App) :
  filtered "all" (allEvents app) = allEvents app
  /\ (c <> "all" ->
      filtered c (allEvents app)
        = filter (fun event => e_group event = c) (allEvents app)
      /\ Forall (fun event => e_group event = c) (filtered c (allEvents app))
      /\ (forall event, event ∈ allEvents app -> e_group event = c ->
                        event ∈ filtered c (allEvents app))
      /\ sublist (filtered c (allEvents app)) (allEvents app))
  /\ allEvents (filterEvents h c app) = allEvents app
  /\ filtered c (allEvents (filterEvents h c app)) = filtered c (allEvents app)
  /\ filtered c (filtered c (allEvents app)) = filtered c (allEvents app)
  /\ filterEvents h c (filterEvents h c app) = filterEvents h c app.
Proof.
  split; [reflexivity|].
  split; [|split; [reflexivity|split; [reflexivity|split; [apply filtered_idempotent|]]]].
  - intros Hc. rewrite (filtered_eq_filter c _ Hc). split; [reflexivity|].
    split; [|split].
    + apply list.Forall_forall. intros e He.
      apply list_elem_of_filter in He. tauto.
    + intros e He Hg. apply list_elem_of_filter. auto.
    + apply sublist_filter.
  - unfold filterEvents, renderEvents.
    cbn [allEvents dom currentFilter event_list_innerHTML textContent
         style_display filter_btns].
    rewrite List.map_map. reflexivity.
Qed.

(** The selector ["unknown"] on three records of that fallback group, and
    the selector ["equal-love"] on the records of the two-page scenario. *)
Lemma filtered_examples :
  filtered "unknown" [mkEvent "x" "" "unknown" 300; mkEvent "y" "" "unknown" 200;
                      mkEvent "z" "" "unknown" 100]
    = [mkEvent "x" "" "unknown" 300; mkEvent "y" "" "unknown" 200;
       mkEvent "z" "" "unknown" 100]
  /\ Forall (fun event => e_group event = "equal-love")
            (filtered "equal-love" [ev_b; ev_c; ev_a])
  /\ filtered "equal-love" [ev_b; ev_c; ev_a] = [ev_a].
Proof.
  split; [reflexivity|]. split; [|reflexivity].
  apply (proj1 (proj2 (proj1 (proj2 (filtered_is_ordered_subsequence
           (hostOf (scripted []) [])
           "equal-love"
           {| allEvents := [ev_b; ev_c; ev_a]; currentFilter := "all";
              dom := emptyPage |})) ltac:(discriminate)))).
Defined.

(* ================================================================== *)
(** * Properties of the counts *)
(* ================================================================== *)

Lemma counts0_configured (k : string) :
  k ∈ GROUP_CONFIG.*1 -> counts0 !! k = Some 0%nat.
Proof.
  intros Hk. simpl in Hk.
  repeat (apply elem_of_cons in Hk as [->|Hk]; [reflexivity|]).
  inversion Hk.
Qed.

Lemma counts0_other (k : string) :
  k ∉ GROUP_CONFIG.*1 -> counts0 !! k = None.
Proof.
  intros Hk. unfold counts0.
  repeat (rewrite lookup_insert_ne;
          [|intros <-; apply Hk; simpl; repeat ((by left) || right)]).
  apply lookup_singleton_ne.
  intros <-. apply Hk. simpl. repeat ((by left) || right).
Qed.

Lemma countEvent_lookup counts event k :
  countEvent counts event !! k
  = (fun n => if decide (e_group event = k) then S n else n) <$> counts !! k.
Proof.
  unfold countEvent. destruct (decide (e_group event = k)) as [->|Hne].
  - destruct (counts !! k) as [n|] eqn:E; simpl.
    + apply lookup_insert_eq.
    + exact E.
  - destruct (counts !! e_group event) as [n|].
    + rewrite lookup_insert_ne by exact Hne. destruct (counts !! k); reflexivity.
    + destruct (counts !! k); reflexivity.
Qed.

Lemma foldl_countEvent_lookup events counts k :
  foldl countEvent counts events !! k
  = (fun n => (n + groupSize k events)%nat) <$> counts !! k.
Proof.
  revert counts. induction events as [|e rest IH]; intros counts.
  - simpl. destruct (counts !! k); simpl; [f_equal; unfold groupSize; simpl; lia|reflexivity].
  - simpl. rewrite IH, countEvent_lookup. unfold groupSize.
    rewrite filter_cons.
    destruct (counts !! k) as [n|]; simpl; [|reflexivity].
    destruct (decide (e_group e = k)); simpl; f_equal; lia.
Qed.

Lemma updateStats_text app id :
  textContent (dom (updateStats app)) !! id
  = let counts := countEvents (allEvents app) in
    if decide (id = "stat-nearly-equal-joy") then Some (showCount counts "nearly-equal-joy")
    else if decide (id = "stat-not-equal-me") then Some (showCount counts "not-equal-me")
    else if decide (id = "stat-equal-love") then Some (showCount counts "equal-love")
    else if decide (id = "count-nearly-equal-joy") then Some (showCount counts "nearly-equal-joy")
    else if decide (id = "count-not-equal-me") then Some (showCount counts "not-equal-me")
    else if decide (id = "count-equal-love") then Some (showCount counts "equal-love")
    else if decide (id = "count-all") then Some (pretty (length (allEvents app)))
    else textContent (dom app) !! id.
Proof.
  unfold updateStats, setText. simpl.
  repeat (case_decide; [subst id; by rewrite ?lookup_insert_eq
                       |rewrite lookup_insert_ne by congruence]).
  reflexivity.
Qed.

(** C8. [updateStats] counts, for each key of [GROUP_CONFIG], the records of
    that group, and shows as the total the length of the whole collection.
    A record whose group is no key of the table is counted in no bucket: it
    changes no count and creates no bucket of its own; the total still
    counts it. *)
Theorem updateStats_counts (app : App) :
  (forall k, k ∈ GROUP_CONFIG.*1 ->
     countEvents (allEvents app) !! k = Some (groupSize k (allEvents app)))
  /\ (forall k, k ∉ GROUP_CONFIG.*1 -> countEvents (allEvents app) !! k = None)
  /\ (forall event, e_group event ∉ GROUP_CONFIG.*1 ->
        countEvents (allEvents app ++ [event]) = countEvents (allEvents app))
  /\ textContent (dom (updateStats app)) !! "count-all"
       = Some (pretty (length (allEvents app)))
  /\ (forall k, k ∈ ["equal-love"; "not-equal-me"; "nearly-equal-joy"] ->
        textContent (dom (updateStats app)) !! ("count-" +:+ k)
          = Some (pretty (groupSize k (allEvents app)))
        /\ textContent (dom (updateStats app)) !! ("stat-" +:+ k)
          = Some (pretty (groupSize k (allEvents app)))).
Proof.
  assert (Hcfg : forall k, k ∈ GROUP_CONFIG.*1 ->
            countEvents (allEvents app) !! k = Some (groupSize k (allEvents app))).
  { intros k Hk. unfold countEvents.
    rewrite foldl_countEvent_lookup, (counts0_configured k Hk). reflexivity. }
  assert (Hother : forall k, k ∉ GROUP_CONFIG.*1 ->
            countEvents (allEvents app) !! k = None).
  { intros k Hk. unfold countEvents.
    rewrite foldl_countEvent_lookup, (counts0_other k Hk). reflexivity. }
  split; [exact Hcfg|]. split; [exact Hother|]. split; [|split].
  - intros event He. specialize (Hother _ He).
    unfold countEvents in *. rewrite foldl_app. simpl.
    unfold countEvent at 1. rewrite Hother. reflexivity.
  - rewrite updateStats_text. reflexivity.
  - intros k Hk.
    assert (Hin : k ∈ GROUP_CONFIG.*1).
    { simpl. repeat (apply elem_of_cons in Hk as [->|Hk]; [repeat ((by left) || right)|]).
      inversion Hk. }
    specialize (Hcfg k Hin).
    repeat (apply elem_of_cons in Hk as [->|Hk];
            [split; rewrite updateStats_text; simpl; unfold showCount;
             rewrite Hcfg; reflexivity|]).
    inversion Hk.
Qed.

Lemma updateStats_counts_example :
  countEvents [ev_b; ev_c; mkEvent "r" "" "rogue" 50; ev_a; ev_c] !! "unknown" = Some 2%nat
  /\ countEvents [ev_b; ev_c; mkEvent "r" "" "rogue" 50; ev_a; ev_c] !! "rogue" = None
  /\ textContent (dom (updateStats
       {| allEvents := [ev_b; ev_c; mkEvent "r" "" "rogue" 50; ev_a; ev_c];
          currentFilter := "all"; dom := emptyPage |})) !! "count-all" = Some "5".
Proof.
  destruct (updateStats_counts
              {| allEvents := [ev_b; ev_c; mkEvent "r" "" "rogue" 50; ev_a; ev_c];
                 currentFilter := "all"; dom := emptyPage |})
    as (Hcfg & Hother & _ & Htotal & _).
  split; [|split].
  - apply (Hcfg "unknown"). simpl. repeat ((by left) || right).
  - apply (Hother "rogue"). simpl. intros Hin.
    repeat (apply elem_of_cons in Hin as [[=]|Hin]). inversion Hin.
  - exact Htotal.
Defined.

(* ================================================================== *)
(** * Properties of the sort *)
(* ================================================================== *)

Lemma positive_byCreatedDesc (x y : Event) :
  positive (byCreatedDesc x y) = true ->
  exists a b, e_created x = Int a /\ e_created y = Int b /\ a < b.
Proof.
  unfold byCreatedDesc.
  destruct (e_created x) as [|a], (e_created y) as [|b]; simpl; try discriminate.
  intros H. exists a, b. repeat split. lia.
Qed.

Lemma not_positive_byCreatedDesc (x y : Event) :
  hasTime x -> hasTime y ->
  positive (byCreatedDesc x y) = false -> newerFirst x y.
Proof.
  unfold hasTime, newerFirst, byCreatedDesc.
  destruct (e_created x) as [|a], (e_created y) as [|b]; simpl; try congruence.
  intros _ _ H. lia.
Qed.

Lemma insertSorted_Permutation (x : Event) (l : list Event) :
  Permutation (insertSorted byCreatedDesc x l) (x :: l).
Proof.
  induction l as [|y rest IH]; simpl; [reflexivity|].
  destruct (positive (byCreatedDesc x y)); [|reflexivity].
  rewrite IH. apply perm_swap.
Qed.

Lemma insertSorted_HdRel (x y : Event) (l : list Event) :
  newerFirst y x -> HdRel newerFirst y l ->
  HdRel newerFirst y (insertSorted byCreatedDesc x l).
Proof.
  intros Hyx Hl. destruct l as [|z rest]; simpl.
  - constructor. exact Hyx.
  - destruct (positive (byCreatedDesc x z)); constructor.
    + inversion Hl; assumption.
    + exact Hyx.
Qed.

Lemma insertSorted_Sorted (x : Event) (l : list Event) :
  hasTime x -> Forall hasTime l ->
  Sorted newerFirst l -> Sorted newerFirst (insertSorted byCreatedDesc x l).
Proof.
  intros Hx Hl Hs. induction Hs as [|y rest Hrest IH Hhd]; simpl.
  - repeat constructor.
  - inversion Hl as [|? ? Hy Hrest']; subst.
    destruct (positive (byCreatedDesc x y)) eqn:E.
    + constructor; [exact (IH Hrest')|].
      apply insertSorted_HdRel; [|exact Hhd].
      destruct (positive_byCreatedDesc _ _ E) as (a & b & Ha & Hb & Hlt).
      unfold newerFirst. rewrite Ha, Hb. simpl. lia.
    + constructor; [constructor; assumption|].
      constructor. apply not_positive_byCreatedDesc; assumption.
Qed.

Lemma insertSorted_filter (t : Num) (x : Event) (l : list Event) :
  filter (fun event => e_created event = t) (insertSorted byCreatedDesc x l)
  = filter (fun event => e_created event = t) (x :: l).
Proof.
  induction l as [|y rest IH]; simpl; [reflexivity|].
  destruct (positive (byCreatedDesc x y)) eqn:E; [|reflexivity].
  destruct (positive_byCreatedDesc _ _ E) as (a & b & Ha & Hb & Hlt).
  rewrite (filter_cons _ y), IH, !filter_cons.
  repeat case_decide; try reflexivity; exfalso;
    assert (Int a = Int b) as [= Hab] by congruence; lia.
Qed.

Lemma sort_Permutation (l : list Event) : Permutation (sort byCreatedDesc l) l.
Proof.
  induction l as [|x rest IH]; simpl; [reflexivity|].
  rewrite insertSorted_Permutation, IH. reflexivity.
Qed.

Lemma sort_Sorted (l : list Event) :
  Forall hasTime l -> Sorted newerFirst (sort byCreatedDesc l).
Proof.
  induction 1 as [|x rest Hx Hrest IH]; simpl; [constructor|].
  apply insertSorted_Sorted; [exact Hx| |exact IH].
  apply (Permutation_Forall (Permutation_sym (sort_Permutation rest)) Hrest).
Qed.

Lemma sort_filter (t : Num) (l : list Event) :
  filter (fun event => e_created event = t) (sort byCreatedDesc l)
  = filter (fun event => e_created event = t) l.
Proof.
  induction l as [|x rest IH]; simpl; [reflexivity|].
  rewrite insertSorted_filter, !filter_cons, IH. reflexivity.
Qed.

Lemma Sorted_adjacent (l : list Event) :
  Sorted newerFirst l ->
  forall i a b, l !! i = Some a -> l !! S i = Some b -> newerFirst a b.
Proof.
  induction 1 as [|x rest Hrest IH Hhd]; intros i a b Ha Hb; [discriminate|].
  destruct i as [|i]; simpl in *.
  - injection Ha as <-. destruct Hhd as [|y rest' Hxy]; [discriminate|].
    simpl in Hb. injection Hb as <-. exact Hxy.
  - apply (IH i); assumption.
Qed.

Lemma init_allEvents h fuel app w app' w' :
  init h fuel app w = (inr (Some app'), w') ->
  exists events w1,
    fetchEvents h fuel w = (inr (Some events), w1)
    /\ allEvents app' = sort byCreatedDesc events.
Proof.
  unfold init, bind. destruct (fetchEvents h fuel w) as [[e|[events|]] w1].
  - discriminate.
  - unfold console_log, ret. intros [= <- _]. exists events, w1. split; reflexivity.
  - discriminate.
Qed.

(** A list of two records or more that holds a record without time value is
    in descending order in none of its arrangements: every comparison with
    [NaN] is false. *)
Lemma undated_never_descending (l : list Event) (x : Event) :
  x ∈ l -> e_created x = NaN -> (2 <= length l)%nat ->
  ~ (forall i a b, l !! i = Some a -> l !! S i = Some b ->
                   numGe (e_created a) (e_created b)).
Proof.
  intros Hin Hx Hlen Hdesc.
  apply list_elem_of_lookup in Hin as [i Hi].
  destruct i as [|j].
  - destruct (lookup_lt_is_Some_2 l 1) as [b Hb]; [lia|].
    specialize (Hdesc 0%nat x b Hi Hb). rewrite Hx in Hdesc. exact Hdesc.
  - destruct (lookup_lt_is_Some_2 l j) as [a Ha].
    { apply lookup_lt_Some in Hi. lia. }
    specialize (Hdesc j a x Ha Hi). rewrite Hx in Hdesc.
    destruct (e_created a); exact Hdesc.
Qed.

(** C3, as amended.  When every record that [fetchEvents] returns has a time
    value (its [createTime] was parsed), [init] stores the collection sorted
    by [Array.prototype.sort] with the comparator [b.created - a.created]:
    in the stored list every record is at least as recent as the one after
    it, the records of any one timestamp are in the order in which they were
    fetched, and no record is lost or added. *)
Theorem init_sort_stable_descending (h : Host) (fuel : nat) (app : App)
    (w w1 : World) (events : list Event) :
  fetchEvents h fuel w = (inr (Some events), w1) ->
  Forall hasTime events ->
  exists app' w',
    init h fuel app w = (inr (Some app'), w')
    /\ allEvents app' = sort byCreatedDesc events
    /\ (forall i a b, allEvents app' !! i = Some a -> allEvents app' !! S i = Some b ->
                      numGe (e_created a) (e_created b))
    /\ (forall t, filter (fun event => e_created event = t) (allEvents app')
                  = filter (fun event => e_created event = t) events)
    /\ Permutation (allEvents app') events.
Proof.
  intros Hfetch Htimes. unfold init, bind. rewrite Hfetch.
  unfold console_log, ret. eexists. eexists. split; [reflexivity|].
  cbn [allEvents]. split; [reflexivity|]. split; [|split].
  - apply Sorted_adjacent, sort_Sorted, Htimes.
  - intros t. apply sort_filter.
  - apply sort_Permutation.
Qed.

(** The two-page scenario: the records come as [a] (100), [b] (300),
    [c] (200) and are stored as [b], [c], [a]. *)
Lemma init_sort_example :
  exists app' w',
    init (hostOf (scripted twoPages) clock3) 5 (initialApp emptyPage) newWorld
      = (inr (Some app'), w')
    /\ allEvents app' = [ev_b; ev_c; ev_a].
Proof.
  destruct (init_sort_stable_descending
              (hostOf (scripted twoPages) clock3) 5 (initialApp emptyPage) newWorld
              (snd (fetchEvents (hostOf (scripted twoPages) clock3) 5 newWorld))
              [ev_a; ev_b; ev_c])
    as (app' & w' & Hinit & Hall & _).
  - vm_compute. reflexivity.
  - repeat constructor; discriminate.
  - exists app', w'. split; [exact Hinit|]. rewrite Hall. reflexivity.
Defined.

(** C3 as it was stated fails.  A page holds, in this order, [a] (100), a
    document whose [createTime] is not a timestamp, [b] (300) and [c] (200).
    The undated record is fetched with [created = NaN]; the list that [init]
    stores is not in descending order, and no arrangement of these four
    records is, so that the failure does not depend on the order an engine
    gives to a list that holds [NaN]. *)
Lemma init_sort_undated_counterexample :
  fst (fetchEvents (hostOf (scripted undatedPage) clock3) 5 newWorld)
    = inr (Some [ev_a; ev_undated; ev_b; ev_c])
  /\ (exists app' w',
        init (hostOf (scripted undatedPage) clock3) 5 (initialApp emptyPage) newWorld
          = (inr (Some app'), w')
        /\ allEvents app' = [ev_a; ev_undated; ev_b; ev_c]
        /\ ~ (forall i a b,
                allEvents app' !! i = Some a -> allEvents app' !! S i = Some b ->
                numGe (e_created a) (e_created b)))
  /\ (forall arrangement,
        Permutation arrangement [ev_a; ev_undated; ev_b; ev_c] ->
        ~ (forall i a b,
             arrangement !! i = Some a -> arrangement !! S i = Some b ->
             numGe (e_created a) (e_created b))).
Proof.
  split; [vm_compute; reflexivity|]. split.
  - eexists. eexists. split; [vm_compute; reflexivity|].
    split; [reflexivity|].
    apply (undated_never_descending _ ev_undated);
      [right; left|reflexivity|simpl; lia].
  - intros arrangement Hperm.
    apply (undated_never_descending _ ev_undated).
    + rewrite Hperm. right. left.
    + reflexivity.
    + rewrite (Permutation_length Hperm). simpl. lia.
Qed.

(** Records of equal timestamps keep their order. *)
Example sort_ties :
  sort byCreatedDesc
    [mkEvent "p" "" "unknown" 7; mkEvent "q" "" "unknown" 9;
     mkEvent "r" "" "unknown" 7; mkEvent "s" "" "unknown" 9]
  = [mkEvent "q" "" "unknown" 9; mkEvent "s" "" "unknown" 9;
     mkEvent "p" "" "unknown" 7; mkEvent "r" "" "unknown" 7].
Proof. reflexivity. Qed.

(* ================================================================== *)
(** * Properties of the paginated fetch *)
(* ================================================================== *)

Lemma fetchPage_readPage h eventList pageToken w :
  exists w',
    fetchPage h (eventList, pageToken) w
    = (match readPage h (remote h (requests w) (requestUrl pageToken)) with
       | inl e => inl e
       | inr (events, tok) => inr (eventList ++ events, tok)
       end, w')
    /\ requests w' = requests w ++ [requestUrl pageToken].
Proof.
  unfold fetchPage, bind, fetch.
  destruct (remote h (requests w) (requestUrl pageToken))
    as [|[|] statusText [| |tok [|docs|shownLength]]]; simpl;
    try (eexists; split; reflexivity).
  - eexists. rewrite app_nil_r. split; reflexivity.
  - unfold liftE. destruct (mapE (normalize h) docs); eexists; split; reflexivity.
Qed.

Lemma doWhile_step h fuel eventList pageToken w :
  exists w',
    requests w' = requests w ++ [requestUrl pageToken]
    /\ doWhile (S fuel) (fetchPage h) hasToken (eventList, pageToken) w
       = match readPage h (remote h (requests w) (requestUrl pageToken)) with
         | inl e => (inl e, w')
         | inr (events, tok) =>
             if truthy tok
             then doWhile fuel (fetchPage h) hasToken (eventList ++ events, tok) w'
             else (inr (Some (eventList ++ events, tok)), w')
         end.
Proof.
  destruct (fetchPage_readPage h eventList pageToken w) as (w' & Hpage & Hreq).
  exists w'. split; [exact Hreq|].
  cbn [doWhile]. unfold bind. rewrite Hpage.
  destruct (readPage h _) as [e|[events tok]]; [reflexivity|].
  unfold hasToken. simpl. destruct (truthy tok); reflexivity.
Qed.

(** As long as the responses carry tokens the loop goes on: the pages are
    consumed one request each, and the loop is then about to request again. *)
Lemma doWhile_pages h log tok pages log' tok' :
  Pages h log tok pages log' tok' ->
  forall fuel eventList w, requests w = log ->
  exists w',
    requests w' = log'
    /\ doWhile (length pages + fuel) (fetchPage h) hasToken (eventList, tok) w
       = doWhile fuel (fetchPage h) hasToken (eventList ++ concat pages, tok') w'.
Proof.
  induction 1 as [log tok|log tok events tok1 pages log' tok' Hread Htok _ IH];
    intros fuel eventList w Hw.
  - exists w. simpl. rewrite app_nil_r. split; [exact Hw|reflexivity].
  - destruct (doWhile_step h (length pages + fuel) eventList tok w)
      as (w1 & Hreq & Hstep).
    rewrite Hw in Hreq, Hstep. rewrite Hread, Htok in Hstep.
    destruct (IH fuel (eventList ++ events) w1 Hreq) as (w' & Hreq' & Hrest).
    exists w'. split; [exact Hreq'|].
    simpl length. simpl concat. rewrite app_assoc, <- Hrest. exact Hstep.
Qed.

Lemma Pages_requests h log tok pages log' tok' :
  Pages h log tok pages log' tok' ->
  length log' = (length log + length pages)%nat.
Proof.
  induction 1 as [|log tok events tok1 pages log' tok' _ _ _ IH]; simpl; [lia|].
  rewrite IH, length_app. simpl. lia.
Qed.

(** Every run of the loop, classified: after some pages that each carried a
    token, either the fuel is used up, or the next response could not be
    read, or it was read and carried no token. *)
Lemma doWhile_run h fuel :
  forall eventList tok w,
  exists pages log tok' w',
    Pages h (requests w) tok pages log tok'
    /\ ((length pages = fuel
         /\ doWhile fuel (fetchPage h) hasToken (eventList, tok) w = (inr None, w')
         /\ requests w' = log)
        \/ (length pages < fuel)%nat
           /\ requests w' = log ++ [requestUrl tok']
           /\ ((exists e,
                  readPage h (remote h log (requestUrl tok')) = inl e
                  /\ doWhile fuel (fetchPage h) hasToken (eventList, tok) w = (inl e, w'))
               \/ (exists events tokf,
                  readPage h (remote h log (requestUrl tok')) = inr (events, tokf)
                  /\ truthy tokf = false
                  /\ doWhile fuel (fetchPage h) hasToken (eventList, tok) w
                     = (inr (Some (eventList ++ concat pages ++ events, tokf)), w')))).
Proof.
  induction fuel as [|fuel IH]; intros eventList tok w.
  - exists [], (requests w), tok, w. split; [constructor|].
    left. repeat split; reflexivity.
  - destruct (doWhile_step h fuel eventList tok w) as (w1 & Hreq & Hstep).
    destruct (readPage h (remote h (requests w) (requestUrl tok)))
      as [e|[events tok1]] eqn:Hread.
    + exists [], (requests w), tok, w1. split; [constructor|].
      right. split; [simpl; lia|]. split; [exact Hreq|].
      left. exists e. split; [exact Hread|exact Hstep].
    + destruct (truthy tok1) eqn:Htok.
      * destruct (IH (eventList ++ events) tok1 w1)
          as (pages & log & tok' & w' & Hpages & Hcases).
        rewrite Hreq in Hpages.
        exists (events :: pages), log, tok', w'.
        split; [exact (Pages_cons h _ _ _ _ _ _ _ Hread Htok Hpages)|].
        rewrite Hstep. simpl length. simpl concat.
        destruct Hcases as [(Hlen & Hrun & Hlog)|(Hlen & Hlog & Hcases)].
        -- left. repeat split; [lia|exact Hrun|exact Hlog].
        -- right. split; [lia|]. split; [exact Hlog|].
           destruct Hcases as [(e & He & Hrun)|(events' & tokf & He & Hf & Hrun)].
           ++ left. exists e. split; [exact He|exact Hrun].
           ++ right. exists events', tokf. split; [exact He|]. split; [exact Hf|].
              rewrite Hrun, <- !app_assoc. reflexivity.
      * exists [], (requests w), tok, w1. split; [constructor|].
        right. split; [simpl; lia|]. split; [exact Hreq|].
        right. exists events, tok1. split; [exact Hread|]. split; [exact Htok|].
        exact Hstep.
Qed.

(** The loop goes on while the responses carry tokens. *)
Lemma fetchEvents_goes_on h w pages log tok :
  Pages h (requests w) JUndefined pages log tok ->
  exists w', fetchEvents h (length pages) w = (inr None, w') /\ requests w' = log.
Proof.
  intros Hpages.
  destruct (doWhile_pages h _ _ _ _ _ Hpages 0%nat [] w eq_refl) as (w' & Hreq & Hrun).
  exists w'. split; [|exact Hreq].
  unfold fetchEvents, tryCatch, fetchLoop, bind.
  rewrite Nat.add_0_r in Hrun. fold hasToken. rewrite Hrun. reflexivity.
Qed.

(** The loop ends at the first response without a token. *)
Lemma fetchEvents_ends h w pages log tok events tokf fuel :
  Pages h (requests w) JUndefined pages log tok ->
  readPage h (remote h log (requestUrl tok)) = inr (events, tokf) ->
  truthy tokf = false ->
  (length pages < fuel)%nat ->
  exists w',
    fetchEvents h fuel w = (inr (Some (concat pages ++ events)), w')
    /\ requests w' = log ++ [requestUrl tok].
Proof.
  intros Hpages Hread Htok Hfuel.
  replace fuel with (length pages + S (fuel - S (length pages)))%nat by lia.
  destruct (doWhile_pages h _ _ _ _ _ Hpages (S (fuel - S (length pages))) [] w eq_refl)
    as (w1 & Hreq & Hrun).
  destruct (doWhile_step h (fuel - S (length pages)) ([] ++ concat pages) tok w1)
    as (w' & Hreq' & Hstep).
  rewrite Hreq in Hreq', Hstep. rewrite Hread, Htok in Hstep.
  exists w'. split; [|exact Hreq'].
  unfold fetchEvents, tryCatch, fetchLoop, bind. fold hasToken.
  rewrite Hrun, Hstep. reflexivity.
Qed.

(** A response that cannot be read empties the result. *)
Lemma fetchEvents_fails h w pages log tok e fuel :
  Pages h (requests w) JUndefined pages log tok ->
  readPage h (remote h log (requestUrl tok)) = inl e ->
  (length pages < fuel)%nat ->
  exists w',
    fetchEvents h fuel w = (inr (Some []), w')
    /\ requests w' = log ++ [requestUrl tok]
    /\ last (console w') = Some "Fetch error:".
Proof.
  intros Hpages Hread Hfuel.
  replace fuel with (length pages + S (fuel - S (length pages)))%nat by lia.
  destruct (doWhile_pages h _ _ _ _ _ Hpages (S (fuel - S (length pages))) [] w eq_refl)
    as (w1 & Hreq & Hrun).
  destruct (doWhile_step h (fuel - S (length pages)) ([] ++ concat pages) tok w1)
    as (w' & Hreq' & Hstep).
  rewrite Hreq in Hreq', Hstep. rewrite Hread in Hstep.
  eexists. unfold fetchEvents, tryCatch, fetchLoop, bind. fold hasToken.
  rewrite Hrun, Hstep. unfold console_log, ret. split; [reflexivity|].
  split; [exact Hreq'|]. simpl. apply last_snoc.
Qed.

(** Every run of the body of the [try] block, classified in the same way. *)
Lemma fetchLoop_run h w fuel :
  exists pages log tok w',
    Pages h (requests w) JUndefined pages log tok
    /\ ((length pages = fuel
         /\ fetchLoop h fuel w = (inr None, w')
         /\ requests w' = log)
        \/ ((length pages < fuel)%nat
            /\ requests w' = log ++ [requestUrl tok]
            /\ ((exists e,
                   readPage h (remote h log (requestUrl tok)) = inl e
                   /\ fetchLoop h fuel w = (inl e, w'))
                \/ (exists events tokf,
                   readPage h (remote h log (requestUrl tok)) = inr (events, tokf)
                   /\ truthy tokf = false
                   /\ fetchLoop h fuel w
                      = (inr (Some (concat pages ++ events)), w'))))).
Proof.
  destruct (doWhile_run h fuel [] JUndefined w)
    as (pages & log & tok & w' & Hpages & Hcases).
  exists pages, log, tok, w'. split; [exact Hpages|].
  unfold fetchLoop, bind. fold hasToken.
  destruct Hcases as [(Hlen & Hrun & Hlog)|(Hlen & Hlog & [(e & He & Hrun)|(events & tokf & He & Hf & Hrun)])];
    rewrite Hrun.
  - left. repeat split; assumption.
  - right. split; [exact Hlen|]. split; [exact Hlog|]. left. exists e. split; [exact He|reflexivity].
  - right. split; [exact Hlen|]. split; [exact Hlog|]. right.
    exists events, tokf. split; [exact He|]. split; [exact Hf|reflexivity].
Qed.

Lemma fetchLoop_returns h fuel w result w' :
  fetchLoop h fuel w = (inr (Some result), w') ->
  exists pages log tok events tokf,
    Pages h (requests w) JUndefined pages log tok
    /\ readPage h (remote h log (requestUrl tok)) = inr (events, tokf)
    /\ truthy tokf = false
    /\ result = concat pages ++ events
    /\ requests w' = log ++ [requestUrl tok]
    /\ length (requests w') = (length (requests w) + S (length pages))%nat.
Proof.
  unfold fetchLoop, bind. fold hasToken.
  destruct (doWhile_run h fuel [] JUndefined w)
    as (pages & log & tok & w1 & Hpages & Hcases).
  destruct Hcases as [(_ & Hrun & _)|(_ & Hlog & [(e & _ & Hrun)|(events & tokf & He & Hf & Hrun)])];
    rewrite Hrun; unfold ret; simpl; intros [= <- <-].
  exists pages, log, tok, events, tokf.
  repeat (split; [assumption || reflexivity|]).
  rewrite Hlog, length_app, (Pages_requests _ _ _ _ _ _ Hpages). simpl. lia.
Qed.

Lemma two_pages_scenario h w s1 s2 tok1 tok2 d1 d2 d3 e1 e2 e3 fuel :
  requests w = [] ->
  remote h [] API_URL = HttpResponse true s1 (BodyData tok1 (DocsArray [d1; d2])) ->
  truthy tok1 = true ->
  remote h [API_URL] (requestUrl tok1)
    = HttpResponse true s2 (BodyData tok2 (DocsArray [d3])) ->
  truthy tok2 = false ->
  normalize h d1 = inr e1 -> normalize h d2 = inr e2 -> normalize h d3 = inr e3 ->
  (2 <= fuel)%nat ->
  exists w',
    fetchEvents h fuel w = (inr (Some [e1; e2; e3]), w')
    /\ requests w' = [API_URL; requestUrl tok1].
Proof.
  intros Hw Hp1 Ht1 Hp2 Ht2 Hd1 Hd2 Hd3 Hfuel.
  assert (Hpages : Pages h (requests w) JUndefined [[e1; e2]] [API_URL] tok1).
  { rewrite Hw. apply (Pages_cons h [] JUndefined [e1; e2] tok1 [] [API_URL] tok1).
    - change (requestUrl JUndefined) with API_URL. rewrite Hp1. simpl.
      rewrite Hd1, Hd2. unfold js_or. rewrite Ht1. reflexivity.
    - exact Ht1.
    - constructor. }
  destruct (fetchEvents_ends h w [[e1; e2]] [API_URL] tok1 [e3] JUndefined fuel Hpages)
    as (w' & Hrun & Hreq).
  - rewrite Hp2. simpl. rewrite Hd3. unfold js_or. rewrite Ht2. reflexivity.
  - reflexivity.
  - simpl. lia.
  - exists w'. split; [exact Hrun|exact Hreq].
Qed.

(** C1. A response carries a token when its [nextPageToken] is truthy, as a
    token of the endpoint (a non-empty string) is.  (i) While the responses
    carry tokens the loop issues one request per response and has not
    returned.  (ii) At the first response without a token it returns the
    records of all the pages, in page order, having issued exactly one
    request per page.  (iii) It returns normally in no other way.  (iv) A
    response with a token and no documents (absent, or an empty array) adds no
    record and, by (i), does not end the loop.  (v) Two documents and a token,
    then one document and no token: three records in page order and two
    requests.  (vi) Every run, whatever the endpoint: after some pages that
    each carried a token, it is still requesting, or the next response could
    not be read (the failure of C2), or the next response carried no token and
    the loop returned; it never stops at a response that was read and that
    carried a token. *)
Theorem fetchEvents_follows_tokens (h : Host) (w : World) :
  (forall pages log tok,
     Pages h (requests w) JUndefined pages log tok ->
     exists w', fetchEvents h (length pages) w = (inr None, w') /\ requests w' = log)
  /\ (forall pages log tok events tokf fuel,
     Pages h (requests w) JUndefined pages log tok ->
     readPage h (remote h log (requestUrl tok)) = inr (events, tokf) ->
     truthy tokf = false ->
     (length pages < fuel)%nat ->
     exists w',
       fetchEvents h fuel w = (inr (Some (concat pages ++ events)), w')
       /\ requests w' = log ++ [requestUrl tok]
       /\ length (requests w') = (length (requests w) + S (length pages))%nat)
  /\ (forall fuel result w',
     fetchLoop h fuel w = (inr (Some result), w') ->
     exists pages log tok events tokf,
       Pages h (requests w) JUndefined pages log tok
       /\ readPage h (remote h log (requestUrl tok)) = inr (events, tokf)
       /\ truthy tokf = false
       /\ result = concat pages ++ events
       /\ requests w' = log ++ [requestUrl tok]
       /\ length (requests w') = (length (requests w) + S (length pages))%nat)
  /\ (forall statusText token,
     truthy token = true ->
     readPage h (HttpResponse true statusText (BodyData token DocsFalsy))
       = inr ([], token)
     /\ readPage h (HttpResponse true statusText (BodyData token (DocsArray [])))
       = inr ([], token))
  /\ (forall s1 s2 tok1 tok2 d1 d2 d3 e1 e2 e3 fuel,
     requests w = [] ->
     remote h [] API_URL = HttpResponse true s1 (BodyData tok1 (DocsArray [d1; d2])) ->
     truthy tok1 = true ->
     remote h [API_URL] (requestUrl tok1)
       = HttpResponse true s2 (BodyData tok2 (DocsArray [d3])) ->
     truthy tok2 = false ->
     normalize h d1 = inr e1 -> normalize h d2 = inr e2 -> normalize h d3 = inr e3 ->
     (2 <= fuel)%nat ->
     exists w',
       fetchEvents h fuel w = (inr (Some [e1; e2; e3]), w')
       /\ requests w' = [API_URL; requestUrl tok1])
  /\ (forall fuel,
     exists pages log tok w',
       Pages h (requests w) JUndefined pages log tok
       /\ ((length pages = fuel
            /\ fetchLoop h fuel w = (inr None, w')
            /\ requests w' = log)
           \/ ((length pages < fuel)%nat
               /\ requests w' = log ++ [requestUrl tok]
               /\ ((exists e,
                      readPage h (remote h log (requestUrl tok)) = inl e
                      /\ fetchLoop h fuel w = (inl e, w'))
                   \/ (exists events tokf,
                      readPage h (remote h log (requestUrl tok)) = inr (events, tokf)
                      /\ truthy tokf = false
                      /\ fetchLoop h fuel w
                         = (inr (Some (concat pages ++ events)), w')))))).
Proof.
  split; [|split; [|split; [|split; [|split]]]]; [| | | | |apply fetchLoop_run].
  - intros pages log tok. apply fetchEvents_goes_on.
  - intros pages log tok events tokf fuel Hpages Hread Htok Hfuel.
    destruct (fetchEvents_ends h w pages log tok events tokf fuel Hpages Hread Htok Hfuel)
      as (w' & Hrun & Hreq).
    exists w'. split; [exact Hrun|]. split; [exact Hreq|].
    rewrite Hreq, length_app, (Pages_requests _ _ _ _ _ _ Hpages). simpl. lia.
  - intros fuel result w'. apply fetchLoop_returns.
  - intros statusText token Htok. simpl. unfold js_or. rewrite Htok. split; reflexivity.
  - intros s1 s2 tok1 tok2 d1 d2 d3 e1 e2 e3 fuel. apply two_pages_scenario.
Qed.

(** The scenario on a concrete endpoint. *)
Lemma fetchEvents_two_pages_example :
  exists w',
    fetchEvents (hostOf (scripted twoPages) clock3) 7 newWorld
      = (inr (Some [ev_a; ev_b; ev_c]), w')
    /\ requests w' = [API_URL; API_URL +:+ "?pageToken=tok1"].
Proof.
  apply (proj1 (proj2 (proj2 (proj2 (proj2 (fetchEvents_follows_tokens
           (hostOf (scripted twoPages) clock3) newWorld)))))
         "OK" "OK" (JStr "tok1") JUndefined doc_a doc_b doc_c);
    try reflexivity.
  lia.
Defined.

Lemma fetchEvents_never_throws h fuel w :
  exists result w', fetchEvents h fuel w = (inr result, w').
Proof.
  unfold fetchEvents, tryCatch.
  destruct (fetchLoop h fuel w) as [[e|result] w1].
  - unfold bind, console_log, ret. eexists. eexists. reflexivity.
  - eexists. eexists. reflexivity.
Qed.

Lemma mapE_fails {A B} (f : A -> Exn + B) (before : list A) (x : A) (after : list A)
    (ys : list B) (e : Exn) :
  mapE f before = inr ys -> f x = inl e ->
  mapE f (before ++ x :: after) = inl e.
Proof.
  revert ys. induction before as [|b before IH]; intros ys Hb Hx; simpl.
  - rewrite Hx. reflexivity.
  - simpl in Hb. destruct (f b) as [e'|y]; [discriminate|].
    destruct (mapE f before) as [e'|ys'] eqn:E; [discriminate|].
    rewrite (IH ys' eq_refl Hx). reflexivity.
Qed.

(** C2. [fetchEvents] never throws.  When, after any number of pages that
    were read and that carried tokens, a request is rejected or its response
    cannot be read, the result is the empty list, whatever the earlier pages
    held; no further request is issued and the failure is logged.  The
    failures are: a rejected request, a response that is not [ok], a body that
    is not JSON, a [null] body, [documents] that is not an array, and a
    document that cannot be normalised. *)
Theorem fetchEvents_all_or_nothing (h : Host) (fuel : nat) (w : World) :
  (exists result w', fetchEvents h fuel w = (inr result, w'))
  /\ (forall pages log tok e,
        Pages h (requests w) JUndefined pages log tok ->
        readPage h (remote h log (requestUrl tok)) = inl e ->
        (length pages < fuel)%nat ->
        exists w',
          fetchEvents h fuel w = (inr (Some []), w')
          /\ requests w' = log ++ [requestUrl tok]
          /\ last (console w') = Some "Fetch error:")
  /\ (forall e w1,
        fetchLoop h fuel w = (inl e, w1) ->
        exists w', fetchEvents h fuel w = (inr (Some []), w') /\ requests w' = requests w1)
  /\ (readPage h FetchRejected = inl NetworkFailure
      /\ (forall statusText body,
            readPage h (HttpResponse false statusText body)
            = inl (Error ("Network error: " +:+ statusText)))
      /\ (forall statusText,
            readPage h (HttpResponse true statusText BodyUnparsable) = inl SyntaxError)
      /\ (forall statusText,
            readPage h (HttpResponse true statusText BodyNull) = inl TypeError)
      /\ (forall statusText token shownLength,
            readPage h (HttpResponse true statusText
                          (BodyData token (DocsNotArray shownLength)))
            = inl TypeError)
      /\ (forall statusText token before doc after events e,
            mapE (normalize h) before = inr events ->
            normalize h doc = inl e ->
            readPage h (HttpResponse true statusText
                          (BodyData token (DocsArray (before ++ doc :: after))))
            = inl e)).
Proof.
  split; [apply fetchEvents_never_throws|]. split; [|split].
  - intros pages log tok e. apply fetchEvents_fails.
  - intros e w1 Hloop. unfold fetchEvents, tryCatch. rewrite Hloop.
    unfold bind, console_log, ret. eexists. split; reflexivity.
  - repeat split; try reflexivity.
    intros statusText token before doc after events e Hbefore Hdoc. simpl.
    rewrite (mapE_fails _ _ _ _ _ _ Hbefore Hdoc). reflexivity.
Qed.

Lemma fetchEvents_failure_example :
  exists w',
    fetchEvents (hostOf (scripted pageThenError) clock3) 7 newWorld
      = (inr (Some []), w')
    /\ requests w' = [API_URL] ++ [API_URL +:+ "?pageToken=tok1"]
    /\ last (console w') = Some "Fetch error:".
Proof.
  apply (proj1 (proj2 (fetchEvents_all_or_nothing
           (hostOf (scripted pageThenError) clock3) 7 newWorld))
         [[ev_a; ev_b]] [API_URL] (JStr "tok1")
         (Error "Network error: Internal Server Error")).
  - apply (Pages_cons _ [] JUndefined [ev_a; ev_b] (JStr "tok1") [] [API_URL] (JStr "tok1"));
      [reflexivity|reflexivity|constructor].
  - reflexivity.
  - simpl. lia.
Defined.

Lemma readPage_falsy_token h ok statusText token docs :
  truthy token = false ->
  readPage h (HttpResponse ok statusText (BodyData token docs))
  = readPage h (HttpResponse ok statusText (BodyData JUndefined docs)).
Proof.
  intros Htok. destruct ok; [|reflexivity].
  destruct docs as [|ds|shownLength]; simpl; unfold js_or; rewrite ?Htok; reflexivity.
Qed.

Lemma falsy_values token :
  truthy token = false <->
  token ∈ [JUndefined; JNull; JBool false; JNum 0 I; JStr ""].
Proof.
  split.
  - destruct token as [| |[|]|z safe|s|shown]; simpl; intros H; try discriminate.
    + left.
    + right; left.
    + do 2 right; left.
    + apply negb_false_iff, Z.eqb_eq in H. subst z. destruct safe.
      do 3 right; left.
    + apply negb_false_iff, String.eqb_eq in H. subst s. do 4 right; left.
  - intros H.
    repeat (apply elem_of_cons in H as [->|H]; [reflexivity|]).
    inversion H.
Qed.

(** C10. A token that is falsy (the empty string, [0], [false], [null]; no
    other value is) is read as an absent one: [pageToken] becomes
    [undefined], the page contributes what it would without the token, and
    when the page can be read the loop ends with it, no further request being
    issued. *)
Theorem fetchEvents_falsy_token_ends (h : Host) (w : World)
    (pages : list (list Event)) (log : list string) (tok : JsVal)
    (statusText : string) (token : JsVal) (docs : Documents)
    (events : list Event) (fuel : nat) :
  Pages h (requests w) JUndefined pages log tok ->
  remote h log (requestUrl tok) = HttpResponse true statusText (BodyData token docs) ->
  token ∈ [JUndefined; JNull; JBool false; JNum 0 I; JStr ""] ->
  readPage h (HttpResponse true statusText (BodyData JUndefined docs))
    = inr (events, JUndefined) ->
  (length pages < fuel)%nat ->
  js_or token JUndefined = JUndefined
  /\ readPage h (HttpResponse true statusText (BodyData token docs))
     = readPage h (HttpResponse true statusText (BodyData JUndefined docs))
  /\ exists w',
       fetchEvents h fuel w = (inr (Some (concat pages ++ events)), w')
       /\ requests w' = log ++ [requestUrl tok]
       /\ length (requests w') = (length (requests w) + S (length pages))%nat.
Proof.
  intros Hpages Hresp Hfalsy Hread Hfuel.
  apply falsy_values in Hfalsy.
  split; [unfold js_or; rewrite Hfalsy; reflexivity|].
  split; [apply readPage_falsy_token, Hfalsy|].
  destruct (fetchEvents_ends h w pages log tok events JUndefined fuel Hpages)
    as (w' & Hrun & Hreq).
  - rewrite Hresp, (readPage_falsy_token _ _ _ _ _ Hfalsy). exact Hread.
  - reflexivity.
  - exact Hfuel.
  - exists w'. split; [exact Hrun|]. split; [exact Hreq|].
    rewrite Hreq, length_app, (Pages_requests _ _ _ _ _ _ Hpages). simpl. lia.
Qed.

Lemma fetchEvents_empty_token_example :
  exists w',
    fetchEvents (hostOf (scripted emptyTokenPages) clock3) 7 newWorld
      = (inr (Some [ev_a; ev_b; ev_c]), w')
    /\ length (requests w') = 2%nat.
Proof.
  destruct (fetchEvents_falsy_token_ends
              (hostOf (scripted emptyTokenPages) clock3) newWorld
              [[ev_a; ev_b]] [API_URL] (JStr "tok1") "OK" (JStr "") (DocsArray [doc_c])
              [ev_c] 7)
    as (_ & _ & w' & Hrun & _ & Hlen).
  - apply (Pages_cons _ [] JUndefined [ev_a; ev_b] (JStr "tok1") [] [API_URL] (JStr "tok1"));
      [reflexivity|reflexivity|constructor].
  - reflexivity.
  - do 4 right. left.
  - reflexivity.
  - simpl. lia.
  - exists w'. split; [exact Hrun|exact Hlen].
Defined.

(* ================================================================== *)
(** * Properties of the renderer *)
(* ================================================================== *)

Section EscapeHtml.

Let nbsp1 : ascii := ascii_of_nat 194.
Let nbsp2 : ascii := ascii_of_nat 160.

Lemma escapeHtml_plain (c : ascii) (s : string) :
  c <> "&"%char -> c <> "<"%char -> c <> ">"%char ->
  (c = nbsp1 -> forall r, s <> String nbsp2 r) ->
  escapeHtml (String c s) = String c (escapeHtml s).
Proof.
  intros Hamp Hlt Hgt Hnbsp. simpl.
  destruct (Ascii.eqb_spec c "&") as [|_]; [contradiction|].
  destruct (Ascii.eqb_spec c "<") as [|_]; [contradiction|].
  destruct (Ascii.eqb_spec c ">") as [|_]; [contradiction|].
  destruct (Ascii.eqb_spec c (ascii_of_nat 194)) as [Hc|_]; [|reflexivity].
  destruct s as [|d r]; [reflexivity|].
  destruct (Ascii.eqb_spec d (ascii_of_nat 160)) as [->|_]; [|reflexivity].
  exfalso. apply (Hnbsp Hc r). reflexivity.
Qed.

(** Induction along the cases of [escapeHtml]. *)
Lemma escapeHtml_cases (P : string -> Prop) :
  P EmptyString ->
  (forall s, P s -> P (String "&" s)) ->
  (forall s, P s -> P (String "<" s)) ->
  (forall s, P s -> P (String ">" s)) ->
  (forall s, P s -> P (String nbsp1 (String nbsp2 s))) ->
  (forall c s,
      c <> "&"%char -> c <> "<"%char -> c <> ">"%char ->
      (c = nbsp1 -> forall r, s <> String nbsp2 r) ->
      P s -> P (String c s)) ->
  forall s, P s.
Proof.
  intros Hnil Hamp Hlt Hgt Hnbsp Hplain s.
  enough (H : P s /\ forall c, P (String c s)) by apply H.
  induction s as [|d s [IHs IHc]].
  - split; [exact Hnil|]. intros c.
    destruct (Ascii.eqb_spec c "&") as [->|?]; [apply Hamp, Hnil|].
    destruct (Ascii.eqb_spec c "<") as [->|?]; [apply Hlt, Hnil|].
    destruct (Ascii.eqb_spec c ">") as [->|?]; [apply Hgt, Hnil|].
    apply Hplain; try assumption. intros _ r. discriminate.
  - split; [apply IHc|]. intros c.
    destruct (Ascii.eqb_spec c "&") as [->|?]; [apply Hamp, IHc|].
    destruct (Ascii.eqb_spec c "<") as [->|?]; [apply Hlt, IHc|].
    destruct (Ascii.eqb_spec c ">") as [->|?]; [apply Hgt, IHc|].
    destruct (Ascii.eqb_spec c nbsp1) as [->|Hc].
    + destruct (Ascii.eqb_spec d nbsp2) as [->|Hd]; [apply Hnbsp, IHs|].
      apply Hplain; try assumption; [|apply IHc].
      intros _ r [= Hd' _]. contradiction.
    + apply Hplain; try assumption; [|apply IHc].
      intros Hc'. contradiction.
Qed.

Lemma prefix_empty (s : string) : String.prefix "" s = true.
Proof. destruct s; reflexivity. Qed.

(** Evaluate a function of the markup on the text of a character
    reference that is followed by an escaped text. *)
Ltac through_reference :=
  simpl; cbv [String.append]; rewrite ?prefix_empty; simpl.

Lemma escapeHtml_no_char (m : ascii) (s : string) :
  m = "<"%char \/ m = ">"%char -> hasChar m (escapeHtml s) = false.
Proof.
  intros Hm. induction s as [| | | | |c s Hamp Hlt Hgt Hnb IH] using escapeHtml_cases;
    try (destruct Hm as [->| ->]; through_reference; assumption || reflexivity).
  rewrite (escapeHtml_plain c s Hamp Hlt Hgt Hnb). simpl. rewrite IH.
  destruct (Ascii.eqb_spec c m) as [->|_]; [|reflexivity].
  destruct Hm; contradiction.
Qed.

Lemma escapeHtml_entitiesOnly (s : string) : entitiesOnly (escapeHtml s) = true.
Proof.
  induction s as [| | | | |c s Hamp Hlt Hgt Hnb IH] using escapeHtml_cases;
    try (through_reference; assumption || reflexivity).
  rewrite (escapeHtml_plain c s Hamp Hlt Hgt Hnb). simpl. rewrite IH.
  destruct (Ascii.eqb_spec c "&"); [contradiction|reflexivity].
Qed.

Lemma unescapeHtml_escapeHtml (s : string) : unescapeHtml (escapeHtml s) = s.
Proof.
  unfold unescapeHtml.
  induction s as [|s IH|s IH|s IH|s IH|c s Hamp Hlt Hgt Hnb IH] using escapeHtml_cases;
    try (through_reference; rewrite ?IH; reflexivity).
  rewrite (escapeHtml_plain c s Hamp Hlt Hgt Hnb). simpl. rewrite IH.
  destruct (Ascii.eqb_spec c "&"); [contradiction|reflexivity].
Qed.

End EscapeHtml.

Lemma append_assoc (a b c : string) : (a +:+ b) +:+ c = a +:+ (b +:+ c).
Proof.
  induction a as [|x a IH]; [reflexivity|].
  change (String x ((a +:+ b) +:+ c) = String x (a +:+ (b +:+ c))).
  rewrite IH. reflexivity.
Qed.

(** The card around the name: the name is substituted once, escaped. *)
Lemma renderCard_around_name h event :
  exists before after,
    forall name,
      renderCard h (withName name event) = before +:+ escapeHtml name +:+ after.
Proof.
  exists (card_0 +:+ e_group event +:+ card_1 +:+ generateShopLink event +:+
          card_2 +:+ e_group event +:+ card_3 +:+ getGroupDisplayName (e_group event) +:+
          card_4 +:+ formatDate h (e_created event) +:+ card_5), card_6.
  intros name. rewrite renderCard_unfold, !append_assoc. reflexivity.
Qed.

Lemma renderEvents_cards h events d :
  events <> [] ->
  event_list_innerHTML (renderEvents h events d)
  = String.concat "" (map (renderCard h) events).
Proof.
  intros Hne. unfold renderEvents. simpl.
  destruct events; [contradiction|]. reflexivity.
Qed.

(** C7, as amended.  In the markup of a non-empty list every record has its
    card, and the name of a record enters its card at one place only, as
    [escapeHtml name]: the card before and after that place does not depend
    on the name.  The text inserted holds no [<] and no [>], each [&] in it
    begins one of [&amp;], [&lt;], [&gt;] and [&nbsp;], and an HTML parser
    reads the name back from it: the name is inserted in escaped form and as
    text only.  [<script>] becomes [&lt;script&gt;].  Nothing is said of the
    places where the fixed markup or another field of the record holds the
    same characters as the name. *)
Theorem renderEvents_name_escaped (h : Host) (events : list Event) (d : Dom) :
  events <> [] ->
  event_list_innerHTML (renderEvents h events d)
    = String.concat "" (map (renderCard h) events)
  /\ (forall event, event ∈ events ->
        (exists before after,
           forall name,
             renderCard h (withName name event)
             = before +:+ escapeHtml name +:+ after)
        /\ renderCard h (withName (e_name event) event) = renderCard h event
        /\ hasChar "<" (escapeHtml (e_name event)) = false
        /\ hasChar ">" (escapeHtml (e_name event)) = false
        /\ entitiesOnly (escapeHtml (e_name event)) = true
        /\ unescapeHtml (escapeHtml (e_name event)) = e_name event)
  /\ escapeHtml "<script>" = "&lt;script&gt;".
Proof.
  intros Hne. split; [apply renderEvents_cards, Hne|]. split; [|reflexivity].
  intros event _. split; [apply renderCard_around_name|].
  split; [reflexivity|].
  split; [apply escapeHtml_no_char; left; reflexivity|].
  split; [apply escapeHtml_no_char; right; reflexivity|].
  split; [apply escapeHtml_entitiesOnly|apply unescapeHtml_escapeHtml].
Qed.

(** A record named [<script>]: its markup holds the escaped name and nowhere
    the name itself. *)
Lemma renderEvents_script_example :
  event_list_innerHTML (renderEvents (hostOf (scripted []) clock3) [ev_b] emptyPage)
    = renderCard (hostOf (scripted []) clock3) ev_b
  /\ includes (renderCard (hostOf (scripted []) clock3) ev_b) "&lt;script&gt;" = true
  /\ includes (renderCard (hostOf (scripted []) clock3) ev_b) "<script>" = false.
Proof.
  split; [|split; vm_compute; reflexivity].
  rewrite (proj1 (renderEvents_name_escaped
                    (hostOf (scripted []) clock3) [ev_b] emptyPage ltac:(discriminate))).
  reflexivity.
Defined.

(** C7 as it was stated fails: the name itself can occur in the output.
    The name [<span] holds a markup-significant character and is a piece of
    the fixed markup of every card; and a record whose id is [<script>], as
    its name is, has that text in its link, where the id is not escaped
    (C6). *)
Lemma renderEvents_raw_name_counterexample :
  hasChar "<" (e_name ev_span) = true
  /\ includes
       (event_list_innerHTML
          (renderEvents (hostOf (scripted []) clock3) [ev_span] emptyPage))
       (e_name ev_span) = true
  /\ includes
       (event_list_innerHTML
          (renderEvents (hostOf (scripted []) clock3) [ev_script_id] emptyPage))
       (e_name ev_script_id) = true
  /\ ~ (forall h events d event,
          event ∈ events -> hasChar "<" (e_name event) = true ->
          includes (event_list_innerHTML (renderEvents h events d)) (e_name event)
          = false).
Proof.
  split; [reflexivity|]. split; [vm_compute; reflexivity|].
  split; [vm_compute; reflexivity|].
  intros Hclaim.
  specialize (Hclaim (hostOf (scripted []) clock3) [ev_span] emptyPage ev_span).
  assert (Hin : ev_span ∈ [ev_span]) by left.
  specialize (Hclaim Hin eq_refl). vm_compute in Hclaim. discriminate Hclaim.
Qed.

(** C6. Every string that comes from a remote document is to be escaped
    before it enters the markup; [app.js] escapes the name and not the id.
    A document whose id is [payload] (a double quote, then
    [><img src=x onerror=alert(1)>]) is fetched and normalised with that id;
    [generateShopLink] puts the id into the [href] as it is, so that the
    markup holds the id unescaped, with its quote and its angle brackets,
    right after the base URL.  The same text as the name is escaped. *)
Theorem renderEvents_id_not_escaped :
  fst (fetchEvents (hostOf (scripted onePage) clock3) 3 newWorld) = inr (Some [ev_x])
  /\ e_id ev_x = payload
  /\ generateShopLink ev_x = "https://monosys.net/equal-love/" +:+ payload
  /\ includes
       (event_list_innerHTML
          (renderEvents (hostOf (scripted onePage) clock3) [ev_x] emptyPage))
       (markup "<a href='https://monosys.net/equal-love/'><img src=x onerror=alert(1)>' target=")
     = true
  /\ hasChar "<" (e_id ev_x) = true
  /\ hasChar dquote (e_id ev_x) = true
  /\ escapeHtml (e_name ev_x) = markup "'&gt;&lt;img src=x onerror=alert(1)&gt;".
Proof. repeat split; vm_compute; reflexivity. Qed.

(* ================================================================== *)
(** * Further properties: normalisation *)
(* ================================================================== *)

Lemma split_nonempty (sep : ascii) (s : string) : split sep s <> [].
Proof.
  destruct s as [|c rest]; simpl; [discriminate|].
  destruct (Ascii.eqb c sep); [discriminate|].
  destruct (split sep rest); discriminate.
Qed.

Lemma split_no_sep (sep : ascii) (s : string) :
  Forall (fun seg => hasChar sep seg = false) (split sep s).
Proof.
  induction s as [|c rest IH]; simpl.
  - repeat constructor.
  - destruct (Ascii.eqb c sep) eqn:E.
    + constructor; [reflexivity|exact IH].
    + destruct (split sep rest) as [|seg segs].
      * repeat constructor. simpl. rewrite E. reflexivity.
      * inversion IH as [|? ? Hseg Hsegs]; subst.
        constructor; [|exact Hsegs]. simpl. rewrite E. exact Hseg.
Qed.

Lemma concat_cons2 (sep x y : string) (l : list string) :
  String.concat sep (x :: y :: l) = x +:+ sep +:+ String.concat sep (y :: l).
Proof. reflexivity. Qed.

(** [s.split(sep).join(sep)] is [s]. *)
Lemma concat_split (sep : ascii) (s : string) :
  String.concat (String sep EmptyString) (split sep s) = s.
Proof.
  induction s as [|c rest IH]; [reflexivity|].
  simpl. pose proof (split_nonempty sep rest) as Hne.
  destruct (split sep rest) as [|seg segs]; [contradiction|].
  destruct (Ascii.eqb_spec c sep) as [->|_].
  - rewrite concat_cons2, IH. reflexivity.
  - destruct segs as [|seg' segs].
    + simpl in *. rewrite IH. reflexivity.
    + rewrite concat_cons2 in *. rewrite <- IH. reflexivity.
Qed.

Lemma concat_snoc (sep : string) (l : list string) (x y : string) :
  String.concat sep ((x :: l) ++ [y])
  = String.concat sep (x :: l) +:+ sep +:+ y.
Proof.
  revert x. induction l as [|z l IH]; intros x; [reflexivity|].
  change ((x :: z :: l) ++ [y]) with (x :: ((z :: l) ++ [y])).
  simpl app. rewrite !concat_cons2.
  change (z :: l ++ [y]) with ((z :: l) ++ [y]). rewrite IH.
  rewrite !append_assoc. reflexivity.
Qed.

(** The last segment of a path: what follows its last separator, or the
    whole path when it has none. *)
Lemma pop_split (sep : ascii) (s : string) :
  exists seg,
    pop (split sep s) = Some seg
    /\ hasChar sep seg = false
    /\ (s = seg \/ exists dir, s = dir +:+ String sep EmptyString +:+ seg).
Proof.
  pose proof (split_nonempty sep s) as Hne.
  pose proof (split_no_sep sep s) as Hno.
  pose proof (concat_split sep s) as Hcat.
  destruct (split sep s) as [|x l] eqn:E using rev_ind; [contradiction|].
  clear IHl. exists x. unfold pop. rewrite last_snoc. split; [reflexivity|].
  split.
  - apply list.Forall_app in Hno as [_ Hx]. inversion Hx; assumption.
  - destruct l as [|y l].
    + left. simpl in Hcat. symmetry. exact Hcat.
    + right. exists (String.concat (String sep EmptyString) (y :: l)).
      rewrite <- Hcat. apply concat_snoc.
Qed.

Lemma officialSiteToGroup_configured (siteUrl : string) :
  configured (officialSiteToGroup siteUrl).
Proof.
  unfold configured, officialSiteToGroup.
  destruct (scanEntries GROUP_CONFIG siteUrl) as [group|] eqn:E.
  - apply (scanEntries_key _ _ _ E).
  - simpl. do 3 right. left.
Qed.

Lemma normalize_wellFormed h doc event :
  normalize h doc = inr event -> wellFormed event.
Proof.
  destruct doc as [|[name|] [fields|] createTime]; simpl; try discriminate.
  intros [= <-]. split; simpl.
  - apply officialSiteToGroup_configured.
  - destruct (pop_split "/" name) as (seg & -> & Hseg & _). exact Hseg.
Qed.

(** X1. The id of a normalised document is the part of [doc.name] after its
    last ['/'] (the whole name when it has none): the name is the id, or a
    directory, a ['/'] and the id, and the id holds no ['/']. *)
Theorem normalize_id_last_segment (h : Host) (name : string) (fields : Fields)
    (createTime : option string) :
  exists event,
    normalize h (DocObject (Some name) (Some fields) createTime) = inr event
    /\ hasChar "/" (e_id event) = false
    /\ (name = e_id event \/ exists dir, name = dir +:+ "/" +:+ e_id event).
Proof.
  destruct (pop_split "/" name) as (seg & Hpop & Hseg & Hname).
  eexists. split; [reflexivity|]. simpl. rewrite Hpop. simpl.
  split; [exact Hseg|exact Hname].
Qed.

Lemma mapE_Forall {A B} (f : A -> Exn + B) (P : B -> Prop) (l : list A) (ys : list B) :
  (forall x y, f x = inr y -> P y) ->
  mapE f l = inr ys -> Forall P ys.
Proof.
  intros Hf. revert ys. induction l as [|x l IH]; simpl; intros ys.
  - intros [= <-]. constructor.
  - destruct (f x) as [e|y] eqn:Ex; [discriminate|].
    destruct (mapE f l) as [e|ys']; [discriminate|].
    intros [= <-]. constructor; [apply (Hf x y Ex)|apply IH; reflexivity].
Qed.

Lemma readPage_wellFormed h response events tok :
  readPage h response = inr (events, tok) -> Forall wellFormed events.
Proof.
  destruct response as [|[|] statusText [| |token [|docs|shownLength]]]; simpl;
    try discriminate.
  - intros [= <- _]. constructor.
  - destruct (mapE (normalize h) docs) as [e|evs] eqn:E; [discriminate|].
    intros [= <- _]. apply (mapE_Forall _ _ _ _ (normalize_wellFormed h) E).
Qed.

Lemma Pages_wellFormed h log tok pages log' tok' :
  Pages h log tok pages log' tok' -> Forall wellFormed (concat pages).
Proof.
  induction 1 as [|log tok events tok1 pages log' tok' Hread _ _ IH]; simpl.
  - constructor.
  - apply list.Forall_app. split; [|exact IH].
    apply (readPage_wellFormed _ _ _ _ Hread).
Qed.

(** X2. Whatever the endpoint answers, every record that [fetchEvents]
    returns has a group that is a key of [GROUP_CONFIG] and an id without
    ['/']. *)
Theorem fetchEvents_records_wellFormed (h : Host) (fuel : nat) (w w' : World)
    (events : list Event) :
  fetchEvents h fuel w = (inr (Some events), w') ->
  Forall wellFormed events.
Proof.
  unfold fetchEvents, tryCatch.
  destruct (fetchLoop h fuel w) as [[e|[result|]] w1] eqn:Hloop.
  - unfold bind, console_log, ret. intros [= <- _]. constructor.
  - intros [= <- _].
    destruct (fetchLoop_returns _ _ _ _ _ Hloop)
      as (pages & log & tok & evs & tokf & Hpages & Hread & _ & -> & _).
    apply list.Forall_app. split.
    + apply (Pages_wellFormed _ _ _ _ _ _ Hpages).
    + apply (readPage_wellFormed _ _ _ _ Hread).
  - discriminate.
Qed.

(** A document without [official_site_url] and [createTime] and with a name
    without ['/']. *)
Lemma fetchEvents_records_wellFormed_example :
  Forall wellFormed
    [mkEvent "solo" "" "unknown" NaN; ev_c].
Proof.
  apply (fetchEvents_records_wellFormed
           (hostOf (scripted
              [HttpResponse true "OK"
                 (BodyData JNull
                    (DocsArray [DocObject (Some "solo")
                                  (Some {| event_name := None;
                                           official_site_url := None |}) None;
                                doc_c]))]) clock3)
           4 newWorld
           (snd (fetchEvents (hostOf (scripted
              [HttpResponse true "OK"
                 (BodyData JNull
                    (DocsArray [DocObject (Some "solo")
                                  (Some {| event_name := None;
                                           official_site_url := None |}) None;
                                doc_c]))]) clock3) 4 newWorld))).
  vm_compute. reflexivity.
Defined.

(* ================================================================== *)
(** * Further properties: the requests of the fetch *)
(* ================================================================== *)

Lemma readPage_token h response events tok :
  readPage h response = inr (events, tok) ->
  truthy tok = true ->
  exists statusText docs, response = HttpResponse true statusText (BodyData tok docs).
Proof.
  destruct response as [|[|] statusText [| |token [|docs|shownLength]]]; simpl;
    try discriminate.
  - unfold js_or. destruct (truthy token) eqn:E.
    + intros [= _ <-] _. eexists. eexists. reflexivity.
    + intros [= _ <-]. discriminate.
  - destruct (mapE (normalize h) docs) as [e|evs]; [discriminate|].
    unfold js_or. destruct (truthy token) eqn:E.
    + intros [= _ <-] _. eexists. eexists. reflexivity.
    + intros [= _ <-]. discriminate.
Qed.

Lemma requestUrl_truthy (token : JsVal) :
  truthy token = true ->
  requestUrl token = API_URL +:+ "?pageToken=" +:+ toString token.
Proof. intros H. unfold requestUrl. rewrite H. reflexivity. Qed.

(** The requests of a run of pages, the request that follows them included:
    the first is for the token the loop starts with, and each one after it
    is for the token of the response to the one before. *)
Lemma Pages_log h log tok pages log' tok' :
  Pages h log tok pages log' tok' ->
  exists new,
    log' = log ++ new
    /\ length new = length pages
    /\ head (new ++ [requestUrl tok']) = Some (requestUrl tok)
    /\ (forall i u v,
          (new ++ [requestUrl tok']) !! i = Some u ->
          (new ++ [requestUrl tok']) !! S i = Some v ->
          exists statusText token docs,
            remote h (log ++ take i (new ++ [requestUrl tok'])) u
              = HttpResponse true statusText (BodyData token docs)
            /\ truthy token = true
            /\ v = API_URL +:+ "?pageToken=" +:+ toString token).
Proof.
  induction 1 as [log tok|log tok events tok1 pages log' tok' Hread Htok _ IH].
  - exists []. rewrite app_nil_r. repeat split.
    intros i u v _ Hv. destruct i; discriminate Hv.
  - destruct IH as (new & -> & Hlen & Hhead & Hchain).
    exists (requestUrl tok :: new). rewrite <- app_assoc. simpl.
    split; [reflexivity|]. split; [lia|]. split; [reflexivity|].
    intros i u v Hu Hv. destruct i as [|i].
    + simpl in Hu, Hv. injection Hu as <-.
      destruct (new ++ [requestUrl tok']) as [|u1 rest] eqn:E; [discriminate|].
      simpl in Hhead, Hv. injection Hhead as ->. injection Hv as <-.
      destruct (readPage_token _ _ _ _ Hread Htok) as (statusText & docs & Hresp).
      exists statusText, tok1, docs. simpl. rewrite app_nil_r.
      split; [exact Hresp|]. split; [exact Htok|apply requestUrl_truthy, Htok].
    + simpl in Hu, Hv.
      destruct (Hchain i u v Hu Hv) as (statusText & token & docs & Hresp & Ht & Hv').
      exists statusText, token, docs. simpl take.
      rewrite <- app_assoc in Hresp. simpl in Hresp.
      split; [exact Hresp|]. split; [exact Ht|exact Hv'].
Qed.

Lemma fetchEvents_requests h fuel w :
  requests (snd (fetchEvents h fuel w)) = requests (snd (fetchLoop h fuel w)).
Proof.
  unfold fetchEvents, tryCatch.
  destruct (fetchLoop h fuel w) as [[e|r] w1]; reflexivity.
Qed.

(** X3. [fetchEvents] only adds to the requests already made, at most one
    per iteration.  The first request it makes is for [API_URL] itself.
    Every later request follows a response that was [ok] and whose
    [nextPageToken] was truthy, and is for [API_URL], [?pageToken=] and that
    very token as a template literal prints it: a string token is sent
    character for character, nothing in it being encoded. *)
Theorem fetchEvents_request_log (h : Host) (fuel : nat) (w : World) :
  exists new,
    requests (snd (fetchEvents h fuel w)) = requests w ++ new
    /\ (length new <= fuel)%nat
    /\ ((0 < fuel)%nat -> head new = Some API_URL)
    /\ (forall i u v,
          new !! i = Some u -> new !! S i = Some v ->
          exists statusText token docs,
            remote h (requests w ++ take i new) u
              = HttpResponse true statusText (BodyData token docs)
            /\ truthy token = true
            /\ v = API_URL +:+ "?pageToken=" +:+ toString token
            /\ (forall text, token = JStr text ->
                              v = API_URL +:+ "?pageToken=" +:+ text)).
Proof.
  rewrite fetchEvents_requests.
  destruct (fetchLoop_run h w fuel) as (pages & log & tok & w' & Hpages & Hcases).
  destruct (Pages_log _ _ _ _ _ _ Hpages) as (new & -> & Hlen & Hhead & Hchain).
  assert (Hstr : forall v token,
            v = API_URL +:+ "?pageToken=" +:+ toString token ->
            forall text, token = JStr text -> v = API_URL +:+ "?pageToken=" +:+ text).
  { intros v token -> text ->. reflexivity. }
  destruct Hcases as [(Hfuel & Hrun & Hlog)|(Hfuel & Hlog & Hcases)].
  - exists new. rewrite Hrun. simpl. rewrite Hlog.
    split; [reflexivity|]. split; [lia|]. split.
    + intros Hpos. destruct new as [|u new]; [simpl in Hlen; lia|].
      simpl in *. exact Hhead.
    + intros i u v Hu Hv.
      assert (Hi : (S i < length new)%nat) by (apply lookup_lt_Some in Hv; exact Hv).
      destruct (Hchain i u v) as (statusText & token & docs & Hresp & Ht & Hv').
      { rewrite lookup_app_l by lia. exact Hu. }
      { rewrite lookup_app_l by lia. exact Hv. }
      exists statusText, token, docs.
      rewrite take_app_le in Hresp by lia.
      split; [exact Hresp|]. split; [exact Ht|]. split; [exact Hv'|].
      apply (Hstr v token Hv').
  - exists (new ++ [requestUrl tok]).
    assert (Hreq : requests (snd (fetchLoop h fuel w))
                   = (requests w ++ new) ++ [requestUrl tok]).
    { destruct Hcases as [(e & _ & ->)|(events & tokf & _ & _ & ->)]; exact Hlog. }
    rewrite Hreq, <- app_assoc. split; [reflexivity|].
    split; [rewrite length_app; simpl; lia|].
    split; [intros _; exact Hhead|].
    intros i u v Hu Hv.
    destruct (Hchain i u v Hu Hv) as (statusText & token & docs & Hresp & Ht & Hv').
    exists statusText, token, docs.
    split; [exact Hresp|]. split; [exact Ht|]. split; [exact Hv'|].
    apply (Hstr v token Hv').
Qed.

(** A token with characters that a query string would have encoded. *)
Lemma fetchEvents_request_log_example :
  requests (snd (fetchEvents (hostOf (scripted rawTokenPages) clock3) 7 newWorld))
  = [API_URL; API_URL +:+ "?pageToken=a b&c=d/e"].
Proof.
  destruct (fetchEvents_request_log (hostOf (scripted rawTokenPages) clock3) 7 newWorld)
    as (new & Hreq & _ & Hhead & Hchain).
  rewrite Hreq. simpl.
  assert (Hnew : new = [API_URL; API_URL +:+ "?pageToken=a b&c=d/e"]).
  { vm_compute in Hreq. symmetry. exact Hreq. }
  subst new.
  destruct (Hchain 0%nat API_URL (API_URL +:+ "?pageToken=a b&c=d/e") eq_refl eq_refl)
    as (statusText & token & docs & _ & _ & _ & _).
  reflexivity.
Defined.

(* ================================================================== *)
(** * Further properties: groups, counts and display names *)
(* ================================================================== *)

Lemma configured_cases (g : string) :
  g ∈ GROUP_CONFIG.*1 <->
  g = "equal-love" \/ g = "not-equal-me" \/ g = "nearly-equal-joy" \/ g = "unknown".
Proof.
  simpl. rewrite !elem_of_cons, elem_of_nil. tauto.
Qed.

Lemma groupSize_sum (events : list Event) :
  (groupSize "equal-love" events + groupSize "not-equal-me" events
   + groupSize "nearly-equal-joy" events + groupSize "unknown" events)%nat
  = length (filter (fun event => e_group event ∈ GROUP_CONFIG.*1) events).
Proof.
  unfold groupSize. induction events as [|e rest IH]; [reflexivity|].
  rewrite !filter_cons.
  destruct (decide (e_group e ∈ GROUP_CONFIG.*1)) as [Hin|Hout].
  - apply configured_cases in Hin.
    destruct Hin as [Hg|[Hg|[Hg|Hg]]]; rewrite Hg;
      repeat case_decide; try discriminate; try contradiction; simpl in *; lia.
  - assert (Hne : e_group e <> "equal-love" /\ e_group e <> "not-equal-me"
                  /\ e_group e <> "nearly-equal-joy" /\ e_group e <> "unknown").
    { repeat split; intros Hg; apply Hout, configured_cases; tauto. }
    destruct Hne as (H1 & H2 & H3 & H4).
    repeat case_decide; try contradiction. exact IH.
Qed.

Lemma filter_configured_all (events : list Event) :
  Forall (fun event => e_group event ∈ GROUP_CONFIG.*1) events ->
  filter (fun event => e_group event ∈ GROUP_CONFIG.*1) events = events.
Proof.
  induction 1 as [|e rest He _ IH]; [reflexivity|].
  rewrite filter_cons. destruct (decide _); [|contradiction].
  rewrite IH. reflexivity.
Qed.

Lemma countEvents_configured (events : list Event) (k : string) :
  k ∈ GROUP_CONFIG.*1 -> countEvents events !! k = Some (groupSize k events).
Proof.
  intros Hk. unfold countEvents.
  rewrite foldl_countEvent_lookup, (counts0_configured k Hk). reflexivity.
Qed.

(** X5. The four buckets of [updateStats] add up to the number of records
    whose group is a key of the table: to the length of the collection when
    every record is such (as every fetched record is), and to less as soon
    as one is not. *)
Theorem countEvents_buckets_sum (events : list Event) :
  exists a b c d,
    countEvents events !! "equal-love" = Some a
    /\ countEvents events !! "not-equal-me" = Some b
    /\ countEvents events !! "nearly-equal-joy" = Some c
    /\ countEvents events !! "unknown" = Some d
    /\ (a + b + c + d)%nat
       = length (filter (fun event => e_group event ∈ GROUP_CONFIG.*1) events)
    /\ (Forall wellFormed events -> (a + b + c + d)%nat = length events)
    /\ (forall event, event ∈ events -> e_group event ∉ GROUP_CONFIG.*1 ->
                      (a + b + c + d < length events)%nat).
Proof.
  exists (groupSize "equal-love" events), (groupSize "not-equal-me" events),
         (groupSize "nearly-equal-joy" events), (groupSize "unknown" events).
  repeat (split; [apply countEvents_configured, configured_cases; tauto|]).
  rewrite groupSize_sum. split; [reflexivity|]. split.
  - intros Hall. f_equal. apply filter_configured_all.
    eapply list.Forall_impl; [exact Hall|]. intros e He. apply He.
  - intros e He Hout.
    induction events as [|x rest IH]; [inversion He|].
    rewrite filter_cons. apply elem_of_cons in He as [<-|He].
    + destruct (decide (e_group e ∈ GROUP_CONFIG.*1)); [contradiction|].
      pose proof (length_filter (fun event => e_group event ∈ GROUP_CONFIG.*1) rest).
      simpl in *. lia.
    + specialize (IH He). destruct (decide _); simpl in *; lia.
Qed.

Lemma countEvents_buckets_sum_example :
  exists a b c d,
    countEvents [ev_b; ev_c; ev_a; ev_c] !! "unknown" = Some d
    /\ (a + b + c + d)%nat = 4%nat.
Proof.
  destruct (countEvents_buckets_sum [ev_b; ev_c; ev_a; ev_c])
    as (a & b & c & d & _ & _ & _ & Hd & _ & Hall & _).
  exists a, b, c, d. split; [exact Hd|]. apply Hall.
  repeat constructor; apply configured_cases; simpl; tauto.
Defined.

(** X6. [updateStats] writes the seven text slots of [statSlots] and nothing
    else: the records, the selector, the list markup, the buttons, the
    display styles and every other text slot are as before.  The bucket of
    the fallback group is counted and shown nowhere. *)
Theorem updateStats_frame (app : App) :
  allEvents (updateStats app) = allEvents app
  /\ currentFilter (updateStats app) = currentFilter app
  /\ event_list_innerHTML (dom (updateStats app)) = event_list_innerHTML (dom app)
  /\ filter_btns (dom (updateStats app)) = filter_btns (dom app)
  /\ style_display (dom (updateStats app)) = style_display (dom app)
  /\ (forall id, id ∈ statSlots -> is_Some (textContent (dom (updateStats app)) !! id))
  /\ (forall id, id ∉ statSlots ->
        textContent (dom (updateStats app)) !! id = textContent (dom app) !! id)
  /\ ("count-unknown" ∉ statSlots) /\ ("stat-unknown" ∉ statSlots).
Proof.
  repeat (split; [reflexivity|]). split; [|split; [|split]].
  - intros id Hid. unfold statSlots in Hid.
    repeat (apply elem_of_cons in Hid as [->|Hid];
            [rewrite updateStats_text; simpl; eexists; reflexivity|]).
    inversion Hid.
  - intros id Hid. rewrite updateStats_text. simpl.
    repeat (case_decide;
            [exfalso; apply Hid; subst id; unfold statSlots;
             repeat ((by left) || right)|]).
    reflexivity.
  - unfold statSlots. intros Hin.
    repeat (apply elem_of_cons in Hin as [[=]|Hin]). inversion Hin.
  - unfold statSlots. intros Hin.
    repeat (apply elem_of_cons in Hin as [[=]|Hin]). inversion Hin.
Qed.

Lemma updateStats_frame_example :
  textContent (dom (updateStats
    {| allEvents := [ev_c]; currentFilter := "all"; dom := emptyPage |}))
    !! "count-unknown" = None.
Proof.
  rewrite (proj1 (proj2 (proj2 (proj2 (proj2 (proj2 (proj2 (updateStats_frame
             {| allEvents := [ev_c]; currentFilter := "all"; dom := emptyPage |})))))))).
  - reflexivity.
  - unfold statSlots. intros Hin.
    repeat (apply elem_of_cons in Hin as [[=]|Hin]). inversion Hin.
Defined.

Lemma ownProperty_not_configured (g : string) :
  g ∉ GROUP_CONFIG.*1 -> ownProperty GROUP_CONFIG g = None.
Proof.
  intros Hout. unfold GROUP_CONFIG. cbn [ownProperty].
  destruct (String.eqb_spec "equal-love" g) as [<-|_];
    [exfalso; apply Hout, configured_cases; tauto|].
  destruct (String.eqb_spec "not-equal-me" g) as [<-|_];
    [exfalso; apply Hout, configured_cases; tauto|].
  destruct (String.eqb_spec "nearly-equal-joy" g) as [<-|_];
    [exfalso; apply Hout, configured_cases; tauto|].
  destruct (String.eqb_spec "unknown" g) as [<-|_];
    [exfalso; apply Hout, configured_cases; tauto|].
  reflexivity.
Qed.

(** X7. [getGroupDisplayName] gives, for a key of [GROUP_CONFIG], the
    [displayName] of its entry, and for every other string the display name
    of the fallback entry.  Whatever the string, the name it gives holds
    nothing that [escapeHtml] would change, and the name shown for the group
    of a configured site URL is that of the site's entry. *)
Theorem getGroupDisplayName_table (group : string) :
  (forall config, (group, config) ∈ GROUP_CONFIG ->
     getGroupDisplayName group = displayName config
     /\ getGroupDisplayName (officialSiteToGroup (url config)) = displayName config)
  /\ (group ∉ GROUP_CONFIG.*1 ->
      getGroupDisplayName group = getGroupDisplayName "unknown")
  /\ escapeHtml (getGroupDisplayName group) = getGroupDisplayName group
  /\ hasChar dquote (getGroupDisplayName group) = false.
Proof.
  split; [|split].
  - intros config Hin. simpl in Hin.
    repeat (apply elem_of_cons in Hin as [[= -> ->]|Hin]; [split; reflexivity|]).
    inversion Hin.
  - intros Hout. unfold getGroupDisplayName.
    rewrite (ownProperty_not_configured _ Hout). reflexivity.
  - destruct (decide (group ∈ GROUP_CONFIG.*1)) as [Hin|Hout].
    + apply configured_cases in Hin.
      destruct Hin as [Hg|[Hg|[Hg|Hg]]]; rewrite Hg; split; vm_compute; reflexivity.
    + unfold getGroupDisplayName.
      rewrite (ownProperty_not_configured _ Hout). split; vm_compute; reflexivity.
Qed.

Lemma getGroupDisplayName_example :
  getGroupDisplayName "constructor" = getGroupDisplayName "unknown".
Proof.
  apply (proj1 (proj2 (getGroupDisplayName_table "constructor"))).
  intros Hin. apply configured_cases in Hin.
  destruct Hin as [H|[H|[H|H]]]; discriminate H.
Defined.

(* ================================================================== *)
(** * Further properties: the formatted date *)
(* ================================================================== *)

Lemma length_append (a b : string) :
  String.length (a +:+ b) = (String.length a + String.length b)%nat.
Proof.
  induction a as [|c a IH]; [reflexivity|].
  change (String c a +:+ b) with (String c (a +:+ b)). simpl. rewrite IH. reflexivity.
Qed.

Lemma allChars_append (p : ascii -> bool) (a b : string) :
  allChars p (a +:+ b) = allChars p a && allChars p b.
Proof.
  induction a as [|c a IH]; [reflexivity|].
  change (String c a +:+ b) with (String c (a +:+ b)). simpl.
  rewrite IH, andb_assoc. reflexivity.
Qed.

Lemma allChars_impl (p q : ascii -> bool) (s : string) :
  (forall c, p c = true -> q c = true) ->
  allChars p s = true -> allChars q s = true.
Proof.
  intros Hpq. induction s as [|c s IH]; [reflexivity|]. simpl.
  intros H. apply andb_true_iff in H as [Hc Hs].
  rewrite (Hpq c Hc), (IH Hs). reflexivity.
Qed.

Lemma allChars_hasChar (p : ascii -> bool) (c : ascii) (s : string) :
  p c = false -> allChars p s = true -> hasChar c s = false.
Proof.
  intros Hc. induction s as [|d s IH]; [reflexivity|]. simpl.
  intros H. apply andb_true_iff in H as [Hd Hs]. rewrite (IH Hs).
  destruct (Ascii.eqb_spec d c) as [->|_]; [congruence|reflexivity].
Qed.

Lemma pretty_N_char_digit (x : N) : isDigit (pretty_N_char x) = true.
Proof. unfold pretty_N_char. repeat case_match; reflexivity. Qed.

Lemma pretty_N_go_digits (x : N) :
  forall s, allChars isDigit s = true -> allChars isDigit (pretty_N_go x s) = true.
Proof.
  induction (N.lt_wf_0 x) as [x _ IH]. intros s Hs.
  destruct (decide (x = 0%N)) as [->|Hx]; [exact Hs|].
  rewrite pretty_N_go_step by lia.
  apply IH; [apply N.div_lt; lia|].
  simpl. rewrite pretty_N_char_digit, Hs. reflexivity.
Qed.

Lemma pretty_N_digits (x : N) : allChars isDigit (pretty x) = true.
Proof.
  unfold pretty, pretty_N. destruct (decide (x = 0%N)); [reflexivity|].
  apply pretty_N_go_digits. reflexivity.
Qed.

Lemma pretty_Z_dateChars (z : Z) : allChars dateChar (pretty z) = true.
Proof.
  assert (Hd : forall c, isDigit c = true -> dateChar c = true).
  { intros c Hc. unfold dateChar. rewrite Hc. reflexivity. }
  destruct z as [|p|p]; [reflexivity| |].
  - apply (allChars_impl isDigit _ _ Hd), (pretty_N_digits (Npos p)).
  - change (pretty (Zneg p)) with ("-" +:+ pretty (Npos p)).
    rewrite allChars_append. simpl.
    apply (allChars_impl isDigit _ _ Hd), (pretty_N_digits (Npos p)).
Qed.

Lemma padStart0_cases (n : nat) (s : string) :
  ((n <= String.length s)%nat /\ padStart0 n s = s)
  \/ ((String.length s < n)%nat
      /\ exists zeros,
           padStart0 n s = zeros +:+ s
           /\ String.length zeros = (n - String.length s)%nat
           /\ allChars (fun c => Ascii.eqb c "0") zeros = true).
Proof.
  unfold padStart0. destruct (le_lt_dec n (String.length s)) as [Hle|Hlt].
  - left. split; [exact Hle|].
    replace (n - String.length s)%nat with 0%nat by lia. reflexivity.
  - right. split; [exact Hlt|].
    exists (String.concat "" (replicate (n - String.length s) "0")).
    split; [reflexivity|].
    generalize (n - String.length s)%nat as k.
    induction k as [|k [IHl IHc]]; [split; reflexivity|].
    destruct k as [|k]; [split; reflexivity|].
    change (replicate (S (S k)) "0") with ("0" :: "0" :: replicate k "0").
    rewrite concat_cons2.
    change ("0" :: replicate k "0") with (replicate (S k) "0").
    split.
    + rewrite !length_append, IHl. reflexivity.
    + rewrite !allChars_append, IHc. reflexivity.
Qed.

Lemma padStart0_dateChars (n : nat) (s : string) :
  allChars dateChar s = true -> allChars dateChar (padStart0 n s) = true.
Proof.
  intros Hs. destruct (padStart0_cases n s) as [[_ ->]|(_ & zeros & -> & _ & Hz)];
    [exact Hs|].
  rewrite allChars_append, Hs, andb_true_r.
  revert Hz. apply allChars_impl.
  intros c Hc. apply Ascii.eqb_eq in Hc. subst c. reflexivity.
Qed.

Lemma dateChar_plainChar (c : ascii) : dateChar c = true -> plainChar c = true.
Proof.
  destruct c as [[] [] [] [] [] [] [] []]; vm_compute; intros H;
    reflexivity || discriminate H.
Qed.

Lemma escapeHtml_plainChars (s : string) :
  allChars plainChar s = true -> escapeHtml s = s.
Proof.
  induction s as [|c s IH]; [reflexivity|]. simpl allChars.
  intros H. apply andb_true_iff in H as [Hc Hs].
  unfold plainChar in Hc.
  apply andb_true_iff in Hc as [Hc H194]. apply andb_true_iff in Hc as [Hc Hgt].
  apply andb_true_iff in Hc as [Hamp Hlt].
  apply negb_true_iff in Hamp, Hlt, Hgt, H194.
  simpl. rewrite Hamp, Hlt, Hgt, H194, (IH Hs). reflexivity.
Qed.

Lemma formatDate_dateChars h (timestamp : Z) :
  allChars dateChar (formatDate h timestamp) = true.
Proof.
  unfold formatDate. cbv zeta. cbn [dateField numToString numAdd].
  rewrite !allChars_append, pretty_Z_dateChars,
    !padStart0_dateChars by apply pretty_Z_dateChars.
  reflexivity.
Qed.

(** The date of a record without time value. *)
Example formatDate_NaN (h : Host) : formatDate h NaN = "NaN/NaN/NaN".
Proof. reflexivity. Qed.

(** X8. The formatted date of a time value holds digits, [-] and [/] only,
    whatever the calendar returns: nothing in it is changed by [escapeHtml], and it holds
    none of [<], [>], [&] and the double quote. *)
Theorem formatDate_needs_no_escaping (h : Host) (timestamp : Z) :
  allChars dateChar (formatDate h timestamp) = true
  /\ escapeHtml (formatDate h timestamp) = formatDate h timestamp
  /\ hasChar "<" (formatDate h timestamp) = false
  /\ hasChar ">" (formatDate h timestamp) = false
  /\ hasChar "&" (formatDate h timestamp) = false
  /\ hasChar dquote (formatDate h timestamp) = false.
Proof.
  pose proof (formatDate_dateChars h timestamp) as Hd.
  split; [exact Hd|]. split.
  - apply escapeHtml_plainChars, (allChars_impl _ _ _ dateChar_plainChar Hd).
  - repeat split; refine (allChars_hasChar dateChar _ _ _ Hd); reflexivity.
Qed.







Lemma get_append_l (n : nat) (a b : string) :
  (n < String.length a)%nat -> String.get n (a +:+ b) = String.get n a.
Proof.
  revert n. induction a as [|c a IH]; intros n Hn; [simpl in Hn; lia|].
  change (String c a +:+ b) with (String c (a +:+ b)).
  destruct n as [|n]; [reflexivity|]. simpl. apply IH. simpl in Hn. lia.
Qed.




(* ================================================================== *)
(** * Further properties: the list markup and the filter *)
(* ================================================================== *)

Lemma append_empty_r (s : string) : s +:+ "" = s.
Proof.
  induction s as [|c s IH]; [reflexivity|].
  change (String c s +:+ "") with (String c (s +:+ "")). rewrite IH. reflexivity.
Qed.

Lemma concat_empty_cons (x : string) (l : list string) :
  String.concat "" (x :: l) = x +:+ String.concat "" l.
Proof.
  destruct l as [|y l]; [simpl; rewrite append_empty_r; reflexivity|].
  rewrite concat_cons2. reflexivity.
Qed.

Lemma concat_empty_app (l1 l2 : list string) :
  String.concat "" (l1 ++ l2) = String.concat "" l1 +:+ String.concat "" l2.
Proof.
  induction l1 as [|x l1 IH]; [reflexivity|].
  change ((x :: l1) ++ l2) with (x :: (l1 ++ l2)).
  rewrite !concat_empty_cons, IH, append_assoc. reflexivity.
Qed.

Lemma cards_start h event events :
  String.get 9 (String.concat "" (map (renderCard h) (event :: events)))
  = Some "<"%char.
Proof.
  change (map (renderCard h) (event :: events))
    with (renderCard h event :: map (renderCard h) events).
  rewrite concat_empty_cons, renderCard_unfold, !append_assoc.
  rewrite get_append_l; [reflexivity|]. vm_compute. lia.
Qed.

Lemma renderEvents_emptyState_iff h events d :
  event_list_innerHTML (renderEvents h events d) = emptyState <-> events = [].
Proof.
  split.
  - destruct events as [|event events]; [reflexivity|].
    unfold renderEvents. cbn [event_list_innerHTML].
    destruct (decide (length (event :: events) = 0%nat)) as [Hlen|_];
      [discriminate Hlen|].
    intros Heq. pose proof (cards_start h event events) as Hget.
    rewrite Heq in Hget. vm_compute in Hget. discriminate Hget.
  - intros ->. reflexivity.
Qed.

(** X10. [renderEvents] shows the empty state when the list is empty and
    only then; the empty state holds no card, and the markup of a non-empty
    list begins with the opening of the first card. *)
Theorem renderEvents_empty_state_only_when_empty (h : Host) (events : list Event)
    (d : Dom) :
  (event_list_innerHTML (renderEvents h events d) = emptyState <-> events = [])
  /\ includes emptyState "event-card" = false
  /\ (events <> [] ->
      String.prefix card_0 (event_list_innerHTML (renderEvents h events d)) = true).
Proof.
  split; [apply renderEvents_emptyState_iff|]. split; [vm_compute; reflexivity|].
  intros Hne. rewrite (renderEvents_cards _ _ _ Hne).
  destruct events as [|event events]; [contradiction|].
  change (map (renderCard h) (event :: events))
    with (renderCard h event :: map (renderCard h) events).
  rewrite concat_empty_cons, renderCard_unfold, !append_assoc.
  generalize (e_group event +:+ card_1 +:+ generateShopLink event +:+ card_2 +:+
              e_group event +:+ card_3 +:+ getGroupDisplayName (e_group event) +:+
              card_4 +:+ formatDate h (e_created event) +:+ card_5 +:+
              escapeHtml (e_name event) +:+ card_6 +:+
              String.concat "" (map (renderCard h) events)) as rest.
  intros rest. vm_compute. destruct rest; reflexivity.
Qed.

Lemma renderEvents_empty_state_example :
  event_list_innerHTML (renderEvents (hostOf (scripted []) clock3) [ev_a] emptyPage)
  <> emptyState.
Proof.
  intros Heq.
  apply (proj1 (renderEvents_empty_state_only_when_empty
                  (hostOf (scripted []) clock3) [ev_a] emptyPage)) in Heq.
  discriminate Heq.
Defined.

(** X11. The markup of a list is the markup of its records one after the
    other, in the order of the list: rendering two non-empty lists joined is
    joining their renderings.  [renderEvents] replaces the list markup and
    touches nothing else of the page. *)
Theorem renderEvents_in_order (h : Host) (events1 events2 : list Event) (d : Dom) :
  events1 <> [] -> events2 <> [] ->
  event_list_innerHTML (renderEvents h (events1 ++ events2) d)
    = event_list_innerHTML (renderEvents h events1 d)
      +:+ event_list_innerHTML (renderEvents h events2 d)
  /\ renderEvents h events2 (renderEvents h events1 d) = renderEvents h events2 d
  /\ textContent (renderEvents h events1 d) = textContent d
  /\ style_display (renderEvents h events1 d) = style_display d
  /\ filter_btns (renderEvents h events1 d) = filter_btns d.
Proof.
  intros H1 H2. split; [|repeat split].
  rewrite !renderEvents_cards; try assumption.
  - rewrite map_app. apply concat_empty_app.
  - destruct events1; [contradiction|discriminate].
Qed.

Lemma renderEvents_in_order_example :
  event_list_innerHTML
    (renderEvents (hostOf (scripted []) clock3) ([ev_b; ev_c] ++ [ev_a]) emptyPage)
  = event_list_innerHTML
      (renderEvents (hostOf (scripted []) clock3) [ev_b; ev_c] emptyPage)
    +:+ event_list_innerHTML
      (renderEvents (hostOf (scripted []) clock3) [ev_a] emptyPage).
Proof.
  apply (renderEvents_in_order (hostOf (scripted []) clock3) [ev_b; ev_c] [ev_a]
           emptyPage); discriminate.
Defined.

Lemma filtered_nil_iff (c : string) (records : list Event) :
  filtered c records = [] <->
  (c = "all" /\ records = [])
  \/ (c <> "all" /\ forall event, event ∈ records -> e_group event <> c).
Proof.
  unfold filtered. destruct (String.eqb_spec c "all") as [->|Hc].
  - split; [intros ->; left; split; reflexivity|].
    intros [[_ ->]|[Hne _]]; [reflexivity|contradiction].
  - split.
    + intros Hnil. right. split; [exact Hc|].
      induction records as [|e rest IH]; intros event Hin; [inversion Hin|].
      simpl in Hnil. destruct (String.eqb_spec (e_group e) c) as [_|Hne];
        [discriminate|].
      apply elem_of_cons in Hin as [->|Hin]; [exact Hne|apply IH; assumption].
    + intros [[Heq _]|[_ Hnone]]; [contradiction|].
      induction records as [|e rest IH]; [reflexivity|]. simpl.
      destruct (String.eqb_spec (e_group e) c) as [Heq|_].
      * exfalso. apply (Hnone e); [left|exact Heq].
      * apply IH. intros event Hin. apply Hnone. right. exact Hin.
Qed.

(** X12. After [filterEvents] the page shows the empty state exactly when
    no record matches the selector: with ["all"], when there is no record at
    all; with another selector, when no record has that group (so for every
    string that is neither ["all"] nor the group of a record). *)
Theorem filterEvents_empty_state (h : Host) (c : string) (app : App) :
  event_list_innerHTML (dom (filterEvents h c app)) = emptyState
  <-> (c = "all" /\ allEvents app = [])
      \/ (c <> "all" /\ forall event, event ∈ allEvents app -> e_group event <> c).
Proof.
  unfold filterEvents. cbn [dom].
  rewrite renderEvents_emptyState_iff. apply filtered_nil_iff.
Qed.

Lemma filterEvents_empty_state_example :
  event_list_innerHTML
    (dom (filterEvents (hostOf (scripted []) clock3) "nearly-equal-joy"
            {| allEvents := [ev_b; ev_c; ev_a]; currentFilter := "all";
               dom := emptyPage |}))
  = emptyState.
Proof.
  apply (proj2 (filterEvents_empty_state (hostOf (scripted []) clock3)
                  "nearly-equal-joy"
                  {| allEvents := [ev_b; ev_c; ev_a]; currentFilter := "all";
                     dom := emptyPage |})).
  right. split; [discriminate|].
  intros event Hin. cbn [allEvents] in Hin.
  repeat (apply elem_of_cons in Hin as [->|Hin]; [discriminate|]).
  inversion Hin.
Defined.

(** X13. Selections do not accumulate: the state after two selections is
    the state after the second alone; it shows the records of the second
    selector among all the records, not among those of the first. *)
Theorem filterEvents_last_selection_wins (h : Host) (g1 g2 : string) (app : App) :
  filterEvents h g2 (filterEvents h g1 app) = filterEvents h g2 app
  /\ event_list_innerHTML (dom (filterEvents h g2 (filterEvents h g1 app)))
     = event_list_innerHTML (renderEvents h (filtered g2 (allEvents app)) (dom app))
  /\ currentFilter (filterEvents h g2 (filterEvents h g1 app)) = g2.
Proof.
  assert (H : filterEvents h g2 (filterEvents h g1 app) = filterEvents h g2 app).
  { unfold filterEvents, renderEvents.
    cbn [allEvents dom currentFilter event_list_innerHTML textContent
         style_display filter_btns].
    rewrite List.map_map. reflexivity. }
  split; [exact H|]. rewrite H. split; reflexivity.
Qed.

(* ================================================================== *)
(** * Further properties: the filter buttons *)
(* ================================================================== *)

Lemma filterEvents_buttons h group app :
  filter_btns (dom (filterEvents h group app))
  = map (toggleActive group) (filter_btns (dom app)).
Proof. reflexivity. Qed.

Lemma toggled_none (group : string) (btns : list Button) :
  group ∉ dataset_group <$> btns ->
  List.filter active (map (toggleActive group) btns) = [].
Proof.
  induction btns as [|b btns IH]; intros Hout; [reflexivity|].
  simpl. destruct (String.eqb_spec (dataset_group b) group) as [Heq|_].
  - exfalso. apply Hout. rewrite <- Heq. left.
  - apply IH. intros Hin. apply Hout. right. exact Hin.
Qed.

Lemma toggled_one (btns : list Button) (i : nat) (btn : Button) :
  NoDup (dataset_group <$> btns) ->
  btns !! i = Some btn ->
  length (List.filter active (map (toggleActive (dataset_group btn)) btns)) = 1%nat.
Proof.
  revert i. induction btns as [|b btns IH]; intros i Hnd Hi; [discriminate|].
  rewrite fmap_cons in Hnd. apply NoDup_cons in Hnd as [Hb Hnd].
  destruct i as [|i]; simpl in Hi.
  - injection Hi as ->. simpl. rewrite String.eqb_refl. simpl.
    rewrite (toggled_none _ _ Hb). reflexivity.
  - simpl. destruct (String.eqb_spec (dataset_group b) (dataset_group btn)) as [Heq|_].
    + exfalso. apply Hb. rewrite Heq.
      apply list_elem_of_fmap. exists btn. split; [reflexivity|].
      apply list_elem_of_lookup. exists i. exact Hi.
    + apply (IH i Hnd Hi).
Qed.

(** X14. After [filterEvents] a filter button is active exactly when its
    [data-group] is the selector, and the [data-group]s are as before.
    Hence a click on a button of a page whose buttons have distinct
    [data-group]s leaves that button, and no other, active, and makes its
    group the current selector; a selector that no button carries leaves no
    button active. *)
Theorem filterEvents_active_buttons (h : Host) (group : string) (app : App) :
  (forall j b, filter_btns (dom (filterEvents h group app)) !! j = Some b ->
     (active b = true <-> dataset_group b = group)
     /\ dataset_group <$> filter_btns (dom app) !! j = Some (dataset_group b))
  /\ (group ∉ dataset_group <$> filter_btns (dom app) ->
      activeButtons (dom (filterEvents h group app)) = 0%nat)
  /\ (forall i btn,
        NoDup (dataset_group <$> filter_btns (dom app)) ->
        filter_btns (dom app) !! i = Some btn ->
        onFilterClick h i app = filterEvents h (dataset_group btn) app
        /\ currentFilter (onFilterClick h i app) = dataset_group btn
        /\ activeButtons (dom (onFilterClick h i app)) = 1%nat
        /\ active <$> filter_btns (dom (onFilterClick h i app)) !! i = Some true)
  /\ (forall i, filter_btns (dom app) !! i = None -> onFilterClick h i app = app).
Proof.
  split; [|split; [|split]].
  - intros j b. rewrite filterEvents_buttons.
    change (map (toggleActive group) (filter_btns (dom app)))
      with (toggleActive group <$> filter_btns (dom app)).
    rewrite list_lookup_fmap.
    destruct (filter_btns (dom app) !! j) as [b0|]; [|discriminate].
    simpl. intros [= <-]. simpl. split; [apply String.eqb_eq|reflexivity].
  - intros Hout. unfold activeButtons. rewrite filterEvents_buttons.
    rewrite (toggled_none _ _ Hout). reflexivity.
  - intros i btn Hnd Hi. unfold onFilterClick. rewrite Hi.
    split; [reflexivity|]. split; [reflexivity|]. split.
    + unfold activeButtons. rewrite filterEvents_buttons.
      apply (toggled_one _ i btn Hnd Hi).
    + rewrite filterEvents_buttons.
      change (map (toggleActive (dataset_group btn)) (filter_btns (dom app)))
        with (toggleActive (dataset_group btn) <$> filter_btns (dom app)).
      rewrite list_lookup_fmap, Hi. simpl. rewrite String.eqb_refl. reflexivity.
  - intros i Hi. unfold onFilterClick. rewrite Hi. reflexivity.
Qed.

Lemma filterEvents_active_buttons_example :
  activeButtons
    (dom (onFilterClick (hostOf (scripted []) clock3) 2 (initialApp emptyPage)))
  = 1%nat
  /\ currentFilter
       (onFilterClick (hostOf (scripted []) clock3) 2 (initialApp emptyPage))
     = "not-equal-me".
Proof.
  destruct (proj1 (proj2 (proj2 (filterEvents_active_buttons
              (hostOf (scripted []) clock3) "all" (initialApp emptyPage))))
              2%nat {| dataset_group := "not-equal-me"; active := false |})
    as (_ & Hcur & Hone & _).
  - simpl. repeat (apply NoDup_cons; split;
      [intros Hin; repeat (apply elem_of_cons in Hin as [[=]|Hin]); inversion Hin|]).
    apply NoDup_nil. exact I.
  - reflexivity.
  - split; [exact Hone|exact Hcur].
Defined.

(* ================================================================== *)
(** * Further properties: sorting and filtering together *)
(* ================================================================== *)

Lemma newerFirst_trans : forall a b c : Event,
  newerFirst a b -> newerFirst b c -> newerFirst a c.
Proof.
  unfold newerFirst. intros a b c.
  destruct (e_created a), (e_created b), (e_created c); simpl; try tauto. lia.
Qed.

Lemma insertSorted_front (x : Event) (l : list Event) :
  Forall (newerFirst x) l -> insertSorted byCreatedDesc x l = x :: l.
Proof.
  destruct 1 as [|y l Hxy _]; [reflexivity|]. simpl.
  unfold newerFirst, byCreatedDesc in *.
  destruct (e_created x) as [|a], (e_created y) as [|b]; simpl in *;
    try contradiction.
  destruct (Z.gtb_spec (b - a) 0); [lia|reflexivity].
Qed.

Lemma Forall_filter_keep {A} (P : A -> Prop) (p : A -> bool) (l : list A) :
  Forall P l -> Forall P (List.filter p l).
Proof.
  induction 1 as [|x l Hx _ IH]; simpl; [constructor|].
  destruct (p x); [constructor; assumption|exact IH].
Qed.

Lemma filter_insertSorted (p : Event -> bool) (x : Event) (l : list Event) :
  hasTime x -> Forall hasTime l ->
  StronglySorted newerFirst l ->
  List.filter p (insertSorted byCreatedDesc x l)
  = if p x then insertSorted byCreatedDesc x (List.filter p l)
    else List.filter p l.
Proof.
  intros Hx Hl Hs. induction Hs as [|y rest Hrest IH Hy]; simpl.
  - destruct (p x); reflexivity.
  - inversion Hl as [|? ? Hty Htrest]; subst.
    destruct (positive (byCreatedDesc x y)) eqn:E.
    + simpl. rewrite (IH Htrest). destruct (p y) eqn:Ey, (p x) eqn:Ex; try reflexivity.
      simpl. rewrite E. reflexivity.
    + simpl. destruct (p x) eqn:Ex; [|reflexivity].
      pose proof (not_positive_byCreatedDesc x y Hx Hty E) as Hxy.
      assert (Hall : Forall (newerFirst x) (y :: rest)).
      { constructor; [exact Hxy|].
        eapply list.Forall_impl; [exact Hy|].
        intros z Hz. apply (newerFirst_trans x y z Hxy Hz). }
      symmetry. apply (insertSorted_front x (List.filter p (y :: rest))).
      apply Forall_filter_keep, Hall.
Qed.

Lemma sort_hasTime (l : list Event) :
  Forall hasTime l -> Forall hasTime (sort byCreatedDesc l).
Proof.
  apply Permutation_Forall, Permutation_sym, sort_Permutation.
Qed.

Lemma sort_StronglySorted (l : list Event) :
  Forall hasTime l -> StronglySorted newerFirst (sort byCreatedDesc l).
Proof.
  intros Hl. apply Sorted_StronglySorted; [exact newerFirst_trans|apply sort_Sorted, Hl].
Qed.

Lemma filter_sort (p : Event -> bool) (l : list Event) :
  Forall hasTime l ->
  List.filter p (sort byCreatedDesc l) = sort byCreatedDesc (List.filter p l).
Proof.
  induction 1 as [|x l Hx Hl IH]; [reflexivity|]. simpl.
  rewrite filter_insertSorted;
    [|exact Hx|apply sort_hasTime, Hl|apply sort_StronglySorted, Hl].
  rewrite IH. destruct (p x); reflexivity.
Qed.

(** X15. For a collection whose records all have a time value, filtering
    the sorted collection gives what sorting the filtered records gives: the
    view of every selector is most recent first, records of one timestamp in
    fetch order. *)
Theorem filtered_sort_commute (c : string) (events : list Event) :
  Forall hasTime events ->
  filtered c (sort byCreatedDesc events) = sort byCreatedDesc (filtered c events)
  /\ Sorted newerFirst (filtered c (sort byCreatedDesc events))
  /\ (forall t,
        filter (fun event => e_created event = t)
               (filtered c (sort byCreatedDesc events))
        = filter (fun event => e_created event = t) (filtered c events)).
Proof.
  intros Htimes.
  assert (H : filtered c (sort byCreatedDesc events)
              = sort byCreatedDesc (filtered c events)).
  { unfold filtered. destruct (String.eqb c "all");
      [reflexivity|apply filter_sort, Htimes]. }
  assert (Hf : Forall hasTime (filtered c events)).
  { unfold filtered. destruct (String.eqb c "all");
      [exact Htimes|apply Forall_filter_keep, Htimes]. }
  split; [exact H|]. rewrite H. split; [apply sort_Sorted, Hf|].
  intros t. apply sort_filter.
Qed.

Lemma filtered_sort_commute_example :
  filtered "not-equal-me" (sort byCreatedDesc [ev_a; ev_b; ev_c; ev_b])
  = [ev_b; ev_b].
Proof.
  rewrite (proj1 (filtered_sort_commute "not-equal-me" [ev_a; ev_b; ev_c; ev_b]
                    ltac:(repeat constructor; discriminate))).
  reflexivity.
Defined.

(* ================================================================== *)
(** * Further properties: initialisation *)
(* ================================================================== *)

Lemma init_run h fuel app w w1 events :
  fetchEvents h fuel w = (inr (Some events), w1) ->
  init h fuel app w
  = (inr (Some {| allEvents := sort byCreatedDesc events;
                  currentFilter := currentFilter app;
                  dom := renderEvents h (sort byCreatedDesc events)
                           (dom (updateStats
                              {| allEvents := sort byCreatedDesc events;
                                 currentFilter := currentFilter app;
                                 dom := setDisplay "stats" "grid"
                                          (setDisplay "loading" "none" (dom app)) |})) |}),
     {| requests := requests w1;
        console := console w1
                   ++ ["Loaded " +:+ pretty (length (sort byCreatedDesc events))
                       +:+ " events"] |}).
Proof.
  intros Hfetch. unfold init, bind. rewrite Hfetch. reflexivity.
Qed.

Lemma init_display h events filter d :
  style_display (renderEvents h events
     (dom (updateStats {| allEvents := events; currentFilter := filter;
                          dom := setDisplay "stats" "grid"
                                   (setDisplay "loading" "none" d) |})))
    !! "loading" = Some "none"
  /\ style_display (renderEvents h events
     (dom (updateStats {| allEvents := events; currentFilter := filter;
                          dom := setDisplay "stats" "grid"
                                   (setDisplay "loading" "none" d) |})))
    !! "stats" = Some "grid".
Proof.
  cbn [style_display renderEvents updateStats dom setText setDisplay].
  split.
  - rewrite lookup_insert_ne by discriminate. apply lookup_insert_eq.
  - apply lookup_insert_eq.
Qed.




(** X17. A fetch that fails, after any number of pages of records, leaves
    the page as an empty collection does: no record, the empty state, [0] in
    each of the seven slots, the loading indicator hidden and the statistics
    shown.  [init] ends in the same application state as for any endpoint
    and any platform for which the fetch returns the empty list. *)
Theorem init_failure_shows_empty (h : Host) (fuel : nat) (app : App) (w : World)
    (pages : list (list Event)) (log : list string) (tok : JsVal) (e : Exn) :
  Pages h (requests w) JUndefined pages log tok ->
  readPage h (remote h log (requestUrl tok)) = inl e ->
  (length pages < fuel)%nat ->
  exists app' w',
    init h fuel app w = (inr (Some app'), w')
    /\ allEvents app' = []
    /\ event_list_innerHTML (dom app') = emptyState
    /\ (forall id, id ∈ statSlots -> textContent (dom app') !! id = Some "0")
    /\ style_display (dom app') !! "loading" = Some "none"
    /\ style_display (dom app') !! "stats" = Some "grid"
    /\ (forall h0 fuel0 w0 w0',
          fetchEvents h0 fuel0 w0 = (inr (Some []), w0') ->
          fst (init h0 fuel0 app w0) = inr (Some app')).
Proof.
  intros Hpages Hread Hfuel.
  destruct (fetchEvents_fails h w pages log tok e fuel Hpages Hread Hfuel)
    as (w1 & Hfetch & _).
  rewrite (init_run _ _ _ _ _ _ Hfetch).
  eexists. eexists. split; [reflexivity|].
  split; [reflexivity|]. split; [reflexivity|]. split; [|split; [|split]].
  - intros id Hid. cbn [dom]. unfold statSlots in Hid.
    change (textContent (renderEvents h ?l ?d)) with (textContent d).
    repeat (apply elem_of_cons in Hid as [->|Hid];
            [rewrite updateStats_text; reflexivity|]).
    inversion Hid.
  - apply init_display.
  - apply init_display.
  - intros h0 fuel0 w0 w0' Hfetch0. rewrite (init_run _ _ _ _ _ _ Hfetch0).
    reflexivity.
Qed.

Lemma init_failure_shows_empty_example :
  exists app',
    fst (init (hostOf (scripted pageThenError) clock3) 7 (initialApp emptyPage) newWorld)
      = inr (Some app')
    /\ fst (init (hostOf (scripted noDocuments) []) 1 (initialApp emptyPage) newWorld)
      = inr (Some app')
    /\ textContent (dom app') !! "count-all" = Some "0".
Proof.
  destruct (init_failure_shows_empty
              (hostOf (scripted pageThenError) clock3) 7 (initialApp emptyPage) newWorld
              [[ev_a; ev_b]] [API_URL] (JStr "tok1")
              (Error "Network error: Internal Server Error"))
    as (app' & w' & Hinit & _ & _ & Hslots & _ & _ & Hsame).
  - apply (Pages_cons _ [] JUndefined [ev_a; ev_b] (JStr "tok1") [] [API_URL] (JStr "tok1"));
      [reflexivity|reflexivity|constructor].
  - reflexivity.
  - simpl. lia.
  - exists app'. split; [rewrite Hinit; reflexivity|]. split.
    + apply (Hsame (hostOf (scripted noDocuments) []) 1%nat newWorld
               (snd (fetchEvents (hostOf (scripted noDocuments) []) 1 newWorld))).
      vm_compute. reflexivity.
    + apply Hslots. left.
Defined.

(* ================================================================== *)
(** * Further properties: escaping and links *)
(* ================================================================== *)

(** X18. [escapeHtml] loses nothing and changes only what it must: two
    texts with the same escaped form are the same text; a text without [&],
    [<], [>] and the first byte of U+00A0 is returned as it is; and a text
    that is returned as it is holds no [<] and no [>]. *)
Theorem escapeHtml_injective (a b : string) :
  (escapeHtml a = escapeHtml b -> a = b)
  /\ (allChars plainChar a = true -> escapeHtml a = a)
  /\ (escapeHtml a = a -> hasChar "<" a = false /\ hasChar ">" a = false).
Proof.
  split; [|split].
  - intros Heq. rewrite <- (unescapeHtml_escapeHtml a), <- (unescapeHtml_escapeHtml b).
    rewrite Heq. reflexivity.
  - apply escapeHtml_plainChars.
  - intros Hfix. rewrite <- Hfix.
    split; apply escapeHtml_no_char; [left|right]; reflexivity.
Qed.

Lemma escapeHtml_injective_example :
  escapeHtml "Spring tour 2024" = "Spring tour 2024".
Proof.
  apply (proj1 (proj2 (escapeHtml_injective "Spring tour 2024" ""))).
  reflexivity.
Defined.

(** X19. The shop link tells the record: two records whose groups are keys
    of [GROUP_CONFIG] (as the groups of fetched records are) and whose links
    are equal have the same group and the same id. *)
Theorem generateShopLink_injective (e1 e2 : Event) :
  configured (e_group e1) -> configured (e_group e2) ->
  generateShopLink e1 = generateShopLink e2 ->
  e_group e1 = e_group e2 /\ e_id e1 = e_id e2.
Proof.
  unfold configured, generateShopLink. intros H1 H2.
  apply configured_cases in H1, H2.
  destruct H1 as [H1|[H1|[H1|H1]]], H2 as [H2|[H2|[H2|H2]]];
    rewrite H1, H2; cbv [String.append]; intros Heq; simplify_eq;
    split; first [reflexivity|assumption].
Qed.

Lemma generateShopLink_injective_example :
  generateShopLink ev_a <> generateShopLink (mkEvent "a" "Spring tour" "unknown" 100).
Proof.
  intros Heq.
  destruct (generateShopLink_injective ev_a (mkEvent "a" "Spring tour" "unknown" 100))
    as [Hg _].
  - apply configured_cases. simpl. tauto.
  - apply configured_cases. simpl. tauto.
  - exact Heq.
  - discriminate Hg.
Defined.

(* ================================================================== *)
(** * Further properties: order *)
(* ================================================================== *)

Lemma sort_sorted_id (l : list Event) :
  StronglySorted newerFirst l -> sort byCreatedDesc l = l.
Proof.
  induction 1 as [|x l _ IH Hx]; [reflexivity|].
  simpl. rewrite IH. apply insertSorted_front, Hx.
Qed.

(** X20. On a collection whose records all have a time value, sorting
    changes a list exactly when it is not yet most recent first: a list in
    descending order of [created] is returned as it is, a list that is
    returned as it is is in descending order, and sorting a second time
    changes nothing. *)
Theorem sort_fixed_iff_sorted (events : list Event) :
  Forall hasTime events ->
  (sort byCreatedDesc events = events <-> Sorted newerFirst events)
  /\ sort byCreatedDesc (sort byCreatedDesc events) = sort byCreatedDesc events.
Proof.
  intros Htimes. split; [split|].
  - intros <-. apply sort_Sorted, Htimes.
  - intros Hs. apply sort_sorted_id, Sorted_StronglySorted;
      [exact newerFirst_trans|exact Hs].
  - apply sort_sorted_id, sort_StronglySorted, Htimes.
Qed.

Lemma sort_fixed_iff_sorted_example :
  sort byCreatedDesc [ev_b; ev_c; ev_a] = [ev_b; ev_c; ev_a].
Proof.
  apply (proj1 (sort_fixed_iff_sorted [ev_b; ev_c; ev_a]
                  ltac:(repeat constructor; discriminate))).
  repeat constructor; unfold newerFirst; simpl; lia.
Defined.

Lemma groupSize_Permutation (k : string) (l l' : list Event) :
  Permutation l l' -> groupSize k l = groupSize k l'.
Proof.
  intros Hp. unfold groupSize. apply Permutation_length.
  apply (filter_Permutation (fun event => e_group event = k)), Hp.
Qed.

(** X21. The counts do not depend on the order of the records: two
    collections with the same records give the same buckets, so that the
    counts [init] shows after sorting are those of the list as fetched. *)
Theorem countEvents_order_independent (events events' : list Event) :
  Permutation events events' ->
  countEvents events = countEvents events'
  /\ countEvents (sort byCreatedDesc events) = countEvents events.
Proof.
  assert (H : forall l l', Permutation l l' -> countEvents l = countEvents l').
  { intros l l' Hp. apply map_eq. intros k. unfold countEvents.
    rewrite !foldl_countEvent_lookup, (groupSize_Permutation k l l' Hp).
    reflexivity. }
  intros Hp. split; [apply H, Hp|apply H, sort_Permutation].
Qed.

Lemma countEvents_order_independent_example :
  countEvents [ev_a; ev_b; ev_c] = countEvents [ev_b; ev_c; ev_a].
Proof.
  apply (countEvents_order_independent [ev_a; ev_b; ev_c] [ev_b; ev_c; ev_a]).
  apply Permutation_cons_append.
Defined.
